(** * Smart log analyzer: parsing, statistics, pattern grouping, anomaly scoring

    A shallow embedding of the analysis pipeline of the repository
    ([app/log_parser.py], [app/analyzer.py], [app/pattern_detection.py],
    [app/ml/anomaly_detection.py]) together with the properties the
    specification states about it.

    Modelling conventions.
    - A Python [str] is the list of its code points, restricted to
      U+0000..U+00FF: one [ascii] per code point.  Character classes
      ([\s], [\w], [\d], [str.isspace], case mapping) are the Unicode ones
      cut down to that range.
    - Python floats are modelled by exact rationals ([Q]).
    - [None] is [option]'s [None]; a raised exception is an [option] result
      as well where a function can raise.
    - The regular expressions of the source are terms of [regex], run by a
      backtracking matcher with the search, substitution and findall
      drivers of Python's [re]. *)

From Stdlib Require Import Ascii String QArith Qround Sorted.
From stdpp Require Import base list gmap sets strings pretty.

Set Warnings "-abstract-large-number".

Local Open Scope nat_scope.
Local Open Scope list_scope.

(** ** Text *)

Abbreviation str := (list ascii).

Definition txt (s : string) : str := list_ascii_of_string s.

Definition code (c : ascii) : nat := nat_of_ascii c.

Definition in_range (lo hi : nat) (c : ascii) : bool :=
  (lo <=? code c) && (code c <=? hi).

(** [str.isspace] / regex [\s] on U+0000..U+00FF. *)
Definition is_space (c : ascii) : bool :=
  in_range 9 13 c || in_range 28 32 c || (code c =? 133) || (code c =? 160).

(** regex [\d] *)
Definition is_digit (c : ascii) : bool := in_range 48 57 c.

(** regex [\w] on U+0000..U+00FF: alphanumerics (Unicode sense) and [_]. *)
Definition is_word (c : ascii) : bool :=
  is_digit c || in_range 65 90 c || in_range 97 122 c || (code c =? 95)
  || (code c =? 170) || in_range 178 179 c || (code c =? 181)
  || in_range 185 186 c || in_range 188 190 c
  || in_range 192 214 c || in_range 216 246 c || in_range 248 255 c.

(** [str.lower] of one character (every lower-case image stays in range). *)
Definition lower_char (c : ascii) : ascii :=
  if in_range 65 90 c || in_range 192 214 c || in_range 216 222 c
  then ascii_of_nat (code c + 32) else c.

Definition lower (s : str) : str := map lower_char s.

(** [str.upper]: U+00DF expands to two letters; the images of U+00B5 and
    U+00FF lie outside the modelled range and are kept as they are (they are
    not ASCII either way, which is all the keyword test below looks at). *)
Definition upper_char (c : ascii) : str :=
  if in_range 97 122 c || in_range 224 246 c || in_range 248 254 c
  then [ascii_of_nat (code c - 32)]
  else if code c =? 223 then txt "SS" else [c].

Definition upper (s : str) : str := concat (map upper_char s).

Definition ascii_eqb (a b : ascii) : bool := Ascii.eqb a b.

Fixpoint is_prefix (p s : str) : bool :=
  match p, s with
  | [], _ => true
  | x :: p', y :: s' => ascii_eqb x y && is_prefix p' s'
  | _ :: _, [] => false
  end.

(** [needle in hay] *)
Fixpoint contains (needle hay : str) : bool :=
  is_prefix needle hay ||
  match hay with
  | [] => false
  | _ :: hay' => contains needle hay'
  end.

(** [s.lstrip(chars)], [s.rstrip(chars)], [s.strip(chars)] for a character
    predicate. *)
Fixpoint lstrip_by (p : ascii -> bool) (s : str) : str :=
  match s with
  | c :: s' => if p c then lstrip_by p s' else s
  | [] => []
  end.

Definition rstrip_by (p : ascii -> bool) (s : str) : str :=
  rev (lstrip_by p (rev s)).

Definition strip_by (p : ascii -> bool) (s : str) : str :=
  rstrip_by p (lstrip_by p s).

(** [s.strip()] *)
Definition strip (s : str) : str := strip_by is_space s.

(** [s.split()]: maximal runs of non-whitespace.  [cur] is the word being
    read, reversed. *)
Fixpoint split_ws_aux (cur : str) (s : str) : list str :=
  match s with
  | [] => match cur with [] => [] | _ => [rev cur] end
  | c :: s' =>
      if is_space c
      then match cur with
           | [] => split_ws_aux [] s'
           | _ => rev cur :: split_ws_aux [] s'
           end
      else split_ws_aux (c :: cur) s'
  end.

Definition split_ws (s : str) : list str := split_ws_aux [] s.

(** [sep.join(parts)] *)
Fixpoint join (sep : str) (parts : list str) : str :=
  match parts with
  | [] => []
  | [p] => p
  | p :: ps => p ++ sep ++ join sep ps
  end.

(** [s.split("\n")]: always at least one piece. *)
Definition newline : ascii := ascii_of_nat 10.

Fixpoint split_lines_aux (cur : str) (s : str) : list str :=
  match s with
  | [] => [rev cur]
  | c :: s' =>
      if ascii_eqb c newline
      then rev cur :: split_lines_aux [] s'
      else split_lines_aux (c :: cur) s'
  end.

Definition split_lines (s : str) : list str := split_lines_aux [] s.

(** [s.isdigit()], for the strings a [\d] group can hold. *)
Definition isdigit (s : str) : bool :=
  match s with [] => false | _ => forallb is_digit s end.

(** [int(s)] for a string of ASCII digits. *)
Definition int_of_digits (s : str) : nat :=
  fold_left (fun acc c => 10 * acc + (code c - 48)) s 0.

(** ** Regular expressions *)

Inductive regex : Type :=
| Eps
| Cls (p : ascii -> bool)
| Seq (r1 r2 : regex)
| Alt (r1 r2 : regex)
| Rep (p : ascii -> bool) (lo : nat) (hi : option nat)
| Opt (r : regex)
| WordB
| Cap (name : nat) (r : regex).

(** The matcher's position: the character before it ([\b] looks back), the
    text from it on, its offset, and the groups captured so far. *)
Record mstate : Type := MState {
  m_prev : option ascii;
  m_rest : str;
  m_pos : nat;
  m_caps : list (nat * str)
}.

Definition advance (j : nat) (st : mstate) : mstate :=
  {| m_prev := match last (take j (m_rest st)) with
               | Some c => Some c
               | None => m_prev st
               end;
     m_rest := drop j (m_rest st);
     m_pos := m_pos st + j;
     m_caps := m_caps st |}.

Definition opt_word (o : option ascii) : bool :=
  match o with Some c => is_word c | None => false end.

Definition at_word_boundary (st : mstate) : bool :=
  xorb (opt_word (m_prev st)) (opt_word (head (m_rest st))).

(** Number of leading characters in the class, at most [hi]. *)
Fixpoint run_length (p : ascii -> bool) (hi : option nat) (s : str) : nat :=
  match s with
  | [] => 0
  | c :: s' =>
      if p c
      then match hi with
           | Some 0 => 0
           | Some (S h) => S (run_length p (Some h) s')
           | None => S (run_length p None s')
           end
      else 0
  end.

(** Greedy repetition: the longest run first, then shorter ones down to
    [lo]. *)
Fixpoint rep_try {R : Type} (n lo : nat) (f : nat -> option R) : option R :=
  if n <? lo then None else
  match f n with
  | Some x => Some x
  | None => match n with
            | 0 => None
            | S n' => rep_try n' lo f
            end
  end.

Fixpoint rmatch (r : regex) (st : mstate) (k : mstate -> option mstate)
  : option mstate :=
  match r with
  | Eps => k st
  | Cls p =>
      match m_rest st with
      | c :: _ => if p c then k (advance 1 st) else None
      | [] => None
      end
  | Seq r1 r2 => rmatch r1 st (fun st' => rmatch r2 st' k)
  | Alt r1 r2 =>
      match rmatch r1 st k with
      | Some x => Some x
      | None => rmatch r2 st k
      end
  | Rep p lo hi =>
      rep_try (run_length p hi (m_rest st)) lo (fun j => k (advance j st))
  | Opt r1 =>
      match rmatch r1 st k with
      | Some x => Some x
      | None => k st
      end
  | WordB => if at_word_boundary st then k st else None
  | Cap name r1 =>
      rmatch r1 st (fun st' =>
        k {| m_prev := m_prev st'; m_rest := m_rest st'; m_pos := m_pos st';
             m_caps := (name, take (m_pos st' - m_pos st) (m_rest st))
                         :: m_caps st' |})
  end.

(** One attempt at the current position: length of the match and groups. *)
Definition match_here (r : regex) (prev : option ascii) (s : str)
  : option (nat * list (nat * str)) :=
  match rmatch r {| m_prev := prev; m_rest := s; m_pos := 0; m_caps := [] |}
               Some with
  | Some st => Some (m_pos st, m_caps st)
  | None => None
  end.

(** [pattern.search(s)]: the leftmost match; [match.group()] is returned. *)
Fixpoint search_from (r : regex) (prev : option ascii) (s : str) : option str :=
  match match_here r prev s with
  | Some (n, _) => Some (take n s)
  | None => match s with
            | [] => None
            | c :: s' => search_from r (Some c) s'
            end
  end.

Definition re_search (r : regex) (s : str) : option str := search_from r None s.

(** [pattern.match(s)] required to consume all of [s]. *)
Definition re_fullmatch (r : regex) (s : str) : option (list (nat * str)) :=
  match match_here r None s with
  | Some (n, caps) => if n =? length s then Some caps else None
  | None => None
  end.

(** [re.sub(pattern, "", s, count)]: the leftmost non-overlapping matches are
    deleted, all of them when [count] is [None] (Python's default
    [count=0]).  [skip] counts the characters of a match still to drop. *)
Fixpoint sub_del (r : regex) (count : option nat) (prev : option ascii)
    (skip : nat) (s : str) : str :=
  match s with
  | [] => []
  | c :: s' =>
      match skip with
      | S k => sub_del r count (Some c) k s'
      | 0 =>
          match count with
          | Some 0 => s
          | _ =>
              match match_here r prev s with
              | Some (S k, _) =>
                  sub_del r (option_map Nat.pred count) (Some c) k s'
              | _ => c :: sub_del r count (Some c) 0 s'
              end
          end
      end
  end.

Definition re_sub_empty (r : regex) (s : str) : str := sub_del r None None 0 s.

(** The same with [count=1]: only the first occurrence goes. *)
Definition re_sub_empty_first (r : regex) (s : str) : str :=
  sub_del r (Some 1) None 0 s.

(** [pattern.findall(s)] for a pattern with at most one group: the group if
    the pattern has one ([grp]), the whole match otherwise. *)
Definition group_or_whole (grp : option nat) (n : nat)
    (caps : list (nat * str)) (s : str) : str :=
  match grp with
  | None => take n s
  | Some g =>
      match list_find (fun p => fst p = g) caps with
      | Some (_, (_, v)) => v
      | None => []
      end
  end.

Fixpoint findall_from (r : regex) (grp : option nat) (prev : option ascii)
    (skip : nat) (s : str) : list str :=
  match s with
  | [] => []
  | c :: s' =>
      match skip with
      | S k => findall_from r grp (Some c) k s'
      | 0 =>
          match match_here r prev s with
          | Some (S k, caps) =>
              group_or_whole grp (S k) caps s
                :: findall_from r grp (Some c) k s'
          | _ => findall_from r grp (Some c) 0 s'
          end
      end
  end.

Definition re_findall (r : regex) (grp : option nat) (s : str) : list str :=
  findall_from r grp None 0 s.

(** Pattern builders. *)
Definition chr_is (icase : bool) (c : ascii) : ascii -> bool :=
  fun x => if icase then ascii_eqb (lower_char x) (lower_char c)
           else ascii_eqb x c.

Definition one_of (icase : bool) (cs : str) : ascii -> bool :=
  fun x => existsb (fun c => chr_is icase c x) cs.

Fixpoint lit_chars (icase : bool) (s : str) : regex :=
  match s with
  | [] => Eps
  | [c] => Cls (chr_is icase c)
  | c :: s' => Seq (Cls (chr_is icase c)) (lit_chars icase s')
  end.

Definition lit (icase : bool) (s : string) : regex := lit_chars icase (txt s).

Fixpoint seqs (rs : list regex) : regex :=
  match rs with
  | [] => Eps
  | [r] => r
  | r :: rs' => Seq r (seqs rs')
  end.

Fixpoint alts (rs : list regex) : regex :=
  match rs with
  | [] => Eps
  | [r] => r
  | r :: rs' => Alt r (alts rs')
  end.

(** [\d{n}] *)
Definition digits (n : nat) : regex := Rep is_digit n (Some n).

(** ** [app/log_parser.py] *)

Module LogParser.

Inductive Level : Type := ERROR | WARNING | INFO | DEBUG.

#[export] Instance Level_eq_dec : EqDecision Level.
Proof. solve_decision. Defined.

(** [datetime.datetime] down to the second. *)
Record datetime : Type := DateTime {
  dt_year : nat; dt_month : nat; dt_day : nat;
  dt_hour : nat; dt_minute : nat; dt_second : nat
}.

(** The dict built by [parse_line]. *)
Record Entry : Type := MkEntry {
  line_number : nat;
  log_level : option Level;
  timestamp : option datetime;
  message : str;
  raw_line : str
}.

Definition wb (r : regex) : regex := seqs [WordB; r; WordB].

(** [LOG_LEVEL_PATTERNS], as compiled in [__init__] with [re.IGNORECASE]. *)
Definition compiled_level_patterns (level : Level) : list regex :=
  match level with
  | ERROR =>
      [ wb (lit true "ERROR");
        wb (lit true "Error");
        wb (Seq (Cls (one_of true (txt "Ee"))) (lit true "rror"));
        wb (lit true "FATAL");
        wb (lit true "CRITICAL");
        wb (lit true "Exception") ]
  | WARNING =>
      [ wb (lit true "WARNING"); wb (lit true "Warning");
        wb (lit true "WARN"); wb (lit true "Warn") ]
  | INFO =>
      [ wb (lit true "INFO"); wb (lit true "Info");
        wb (lit true "INFORMATION") ]
  | DEBUG =>
      [ wb (lit true "DEBUG"); wb (lit true "Debug") ]
  end.

Definition ch (s : string) : regex := lit false s.

Definition date_ymd : regex :=
  seqs [digits 4; ch "-"; digits 2; ch "-"; digits 2].

Definition time_hms : regex :=
  seqs [digits 2; ch ":"; digits 2; ch ":"; digits 2].

(** [TIMESTAMP_PATTERNS], compiled without flags. *)
Definition TIMESTAMP_PATTERNS : list regex :=
  [ seqs [date_ymd; ch " "; time_hms];
    seqs [date_ymd; ch "T"; time_hms];
    seqs [digits 2; ch "/"; digits 2; ch "/"; digits 4; ch " "; time_hms];
    seqs [ch "["; date_ymd; ch " "; time_hms; ch "]"] ].

(** [detect_log_level]: levels in priority order, first pattern that is
    found anywhere in the line decides. *)
Definition level_matches (line : str) (level : Level) : bool :=
  existsb (fun p => bool_decide (is_Some (re_search p line)))
          (compiled_level_patterns level).

Definition detect_log_level (line : str) : option Level :=
  find (level_matches line) [ERROR; WARNING; INFO; DEBUG].

(** *** [datetime.strptime]

    CPython turns the format into a regular expression (one named group per
    directive, white space as [\s+], everything case-insensitive), matches
    it against the whole string, converts the groups and builds the
    [datetime], whose constructor checks the ranges.  Every failure is a
    [ValueError], here [None]. *)

Definition g (c : string) : nat :=
  match txt c with x :: _ => code x | [] => 0 end.

Definition d01 : ascii -> bool := in_range 48 49.
Definition d02 : ascii -> bool := in_range 48 50.
Definition d03 : ascii -> bool := in_range 48 51.
Definition d05 : ascii -> bool := in_range 48 53.
Definition d12 : ascii -> bool := in_range 49 50.
Definition d19 : ascii -> bool := in_range 49 57.
Definition is_char (s : string) : ascii -> bool :=
  fun x => match txt s with c :: _ => ascii_eqb x c | [] => false end.

Definition directive_regex (c : ascii) : option regex :=
  if ascii_eqb c "d" then
    Some (Cap (g "d") (alts [ Seq (Cls (is_char "3")) (Cls d01);
                              Seq (Cls d12) (Cls is_digit);
                              Seq (Cls (is_char "0")) (Cls d19);
                              Cls d19;
                              Seq (Cls (is_char " ")) (Cls d19) ]))
  else if ascii_eqb c "H" then
    Some (Cap (g "H") (alts [ Seq (Cls (is_char "2")) (Cls d03);
                              Seq (Cls d01) (Cls is_digit);
                              Cls is_digit ]))
  else if ascii_eqb c "M" then
    Some (Cap (g "M") (alts [ Seq (Cls d05) (Cls is_digit); Cls is_digit ]))
  else if ascii_eqb c "S" then
    Some (Cap (g "S") (alts [ Seq (Cls (is_char "6")) (Cls d01);
                              Seq (Cls d05) (Cls is_digit);
                              Cls is_digit ]))
  else if ascii_eqb c "m" then
    Some (Cap (g "m") (alts [ Seq (Cls (is_char "1")) (Cls d02);
                              Seq (Cls (is_char "0")) (Cls d19);
                              Cls d19 ]))
  else if ascii_eqb c "Y" then
    Some (Cap (g "Y") (seqs [Cls is_digit; Cls is_digit; Cls is_digit;
                             Cls is_digit]))
  else None.

(** The format-to-regex translation: a run of white space becomes one
    [\s+] ([in_ws] says that the run has begun), a directive its group, any
    other character itself; [None] for a directive outside the six the
    parser uses. *)
Fixpoint format_regex_from (in_ws : bool) (fmt : str) : option regex :=
  match fmt with
  | [] => Some Eps
  | c :: fmt' =>
      if ascii_eqb c "%" then
        match fmt' with
        | d :: fmt'' =>
            match directive_regex d, format_regex_from false fmt'' with
            | Some r, Some rs => Some (Seq r rs)
            | _, _ => None
            end
        | [] => None
        end
      else if is_space c then
        match format_regex_from true fmt' with
        | Some rs => Some (if in_ws then rs else Seq (Rep is_space 1 None) rs)
        | None => None
        end
      else
        match format_regex_from false fmt' with
        | Some rs => Some (Seq (Cls (chr_is true c)) rs)
        | None => None
        end
  end.

Definition format_regex (fmt : str) : option regex :=
  format_regex_from false fmt.

Definition is_leap (y : nat) : bool :=
  ((y mod 4 =? 0) && negb (y mod 100 =? 0)) || (y mod 400 =? 0).

Definition days_in_month (y m : nat) : nat :=
  match m with
  | 2 => if is_leap y then 29 else 28
  | 4 | 6 | 9 | 11 => 30
  | _ => 31
  end.

Definition group_int (caps : list (nat * str)) (name : string) : option nat :=
  match list_find (fun p => fst p = g name) caps with
  | Some (_, (_, v)) => Some (int_of_digits v)
  | None => None
  end.

(** The [datetime] constructor's checks. *)
Definition make_datetime (y m d hh mm ss : nat) : option datetime :=
  if (1 <=? y) && (y <? 10000) && (1 <=? m) && (m <=? 12)
     && (1 <=? d) && (d <=? days_in_month y m)
     && (hh <=? 23) && (mm <=? 59) && (ss <=? 59)
  then Some (DateTime y m d hh mm ss) else None.

Definition strptime (s : str) (fmt : string) : option datetime :=
  match format_regex (txt fmt) with
  | None => None
  | Some r =>
      match re_fullmatch r s with
      | None => None
      | Some caps =>
          match group_int caps "Y", group_int caps "m", group_int caps "d",
                group_int caps "H", group_int caps "M", group_int caps "S" with
          | Some y, Some m, Some d, Some hh, Some mm, Some ss =>
              make_datetime y m d hh mm ss
          | _, _, _, _, _, _ => None
          end
      end
  end.

Definition TIMESTAMP_FORMATS : list string :=
  [ "%Y-%m-%d %H:%M:%S"; "%Y-%m-%dT%H:%M:%S"; "%d/%m/%Y %H:%M:%S" ]%string.

(** The inner loop of [extract_timestamp]: the first format that parses
    returns; a [ValueError] moves on to the next format. *)
Fixpoint try_formats (fmts : list string) (s : str) : option datetime :=
  match fmts with
  | [] => None
  | fmt :: fmts' =>
      match strptime s fmt with
      | Some t => Some t
      | None => try_formats fmts' s
      end
  end.

(** [match.group().strip("[]")] then the formats. *)
Definition parse_match (m : str) : option datetime :=
  try_formats TIMESTAMP_FORMATS (strip_by (one_of false (txt "[]")) m).

(** The outer loop of [extract_timestamp].  When no format parses the
    match, the inner [for] ends without returning and without raising, so
    the handler of the surrounding [try] (which returns [None]) is not
    entered and the outer loop goes on to the next pattern. *)
Fixpoint extract_timestamp_from (pats : list regex) (line : str)
  : option datetime :=
  match pats with
  | [] => None
  | p :: pats' =>
      match re_search p line with
      | Some m =>
          match parse_match m with
          | Some t => Some t
          | None => extract_timestamp_from pats' line
          end
      | None => extract_timestamp_from pats' line
      end
  end.

Definition extract_timestamp (line : str) : option datetime :=
  extract_timestamp_from TIMESTAMP_PATTERNS line.

(** [message = re.sub(p, "", message).strip()] for each pattern in turn. *)
Definition remove_patterns (pats : list regex) (message : str) : str :=
  fold_left (fun m p => strip (re_sub_empty p m)) pats message.

Definition parse_line (line : str) (line_number : nat) : option Entry :=
  let line := strip line in
  match line with
  | [] => None
  | _ =>
      let log_level := detect_log_level line in
      let timestamp := extract_timestamp line in
      let message := line in
      let message :=
        match timestamp with
        | Some _ => remove_patterns TIMESTAMP_PATTERNS message
        | None => message
        end in
      let message :=
        match log_level with
        | Some level => remove_patterns (compiled_level_patterns level) message
        | None => message
        end in
      let message := join (txt " ") (split_ws message) in
      Some {| line_number := line_number;
              log_level := log_level;
              timestamp := timestamp;
              message := match message with [] => line | _ => message end;
              raw_line := line |}
  end.

(** [enumerate(lines, start)] with the [if parsed: append] filter. *)
Fixpoint parse_lines (idx : nat) (lines : list str) : list Entry :=
  match lines with
  | [] => []
  | line :: lines' =>
      match parse_line line idx with
      | Some parsed => parsed :: parse_lines (S idx) lines'
      | None => parse_lines (S idx) lines'
      end
  end.

Definition parse_file (file_content : str) : list Entry :=
  parse_lines 1 (split_lines file_content).

End LogParser.

Export LogParser.

(** ** [collections.Counter]

    Keys in first-seen order with their counts; [most_common] needs that
    order to break ties. *)

Section Counter.
Context {K : Type} `{EqDecision K}.

Fixpoint counter_add (k : K) (c : list (K * nat)) : list (K * nat) :=
  match c with
  | [] => [(k, 1)]
  | (k', n) :: c' =>
      if decide (k' = k) then (k', S n) :: c' else (k', n) :: counter_add k c'
  end.

(** [Counter(iterable)] *)
Definition Counter (xs : list K) : list (K * nat) :=
  fold_left (fun c k => counter_add k c) xs [].

(** [counter.get(k, 0)] *)
Fixpoint counter_get (k : K) (c : list (K * nat)) : nat :=
  match c with
  | [] => 0
  | (k', n) :: c' => if decide (k' = k) then n else counter_get k c'
  end.

(** Stable sort by descending count: an item goes after the items that
    count more, before those that count the same and came later. *)
Fixpoint insert_desc (x : K * nat) (l : list (K * nat)) : list (K * nat) :=
  match l with
  | [] => [x]
  | y :: l' => if snd x <? snd y then y :: insert_desc x l' else x :: l
  end.

Definition sort_desc (l : list (K * nat)) : list (K * nat) :=
  foldr insert_desc [] l.

(** [counter.most_common(n)] *)
Definition most_common (n : nat) (c : list (K * nat)) : list (K * nat) :=
  take n (sort_desc c).
End Counter.

(** [round(x, 2)]: to the nearest hundredth, ties to even, taken on the
    exact rational (a float next to a tie may fall on its other side). *)
Definition round_half_even (q : Q) : Z :=
  let f := Qfloor q in
  let frac := (q - inject_Z f)%Q in
  match (frac ?= 1 # 2)%Q with
  | Lt => f
  | Gt => (f + 1)%Z
  | Eq => if Z.even f then f else (f + 1)%Z
  end.

Definition round2 (q : Q) : Q :=
  Qred (inject_Z (round_half_even (q * 100)) / 100).

Definition Qnat (n : nat) : Q := inject_Z (Z.of_nat n).

(** ** [app/analyzer.py] *)

Module LogAnalyzer.

Record TopMessage : Type := MkTop {
  top_message : str;
  top_count : nat;
  top_percentage : Q
}.

Record Analysis : Type := MkAnalysis {
  total_entries : nat;
  error_count : nat;
  warning_count : nat;
  info_count : nat;
  debug_count : nat;
  top_errors : list TopMessage;
  top_warnings : list TopMessage;
  time_distribution : gmap string nat
}.

Definition _empty_analysis : Analysis :=
  {| total_entries := 0; error_count := 0; warning_count := 0;
     info_count := 0; debug_count := 0;
     top_errors := []; top_warnings := []; time_distribution := ∅ |}.

Definition nonblank (s : str) : bool :=
  match strip s with [] => false | _ => true end.

Definition _get_top_messages (messages : list str) (limit : nat)
  : list TopMessage :=
  match messages with
  | [] => []
  | _ =>
      let normalized :=
        map (fun msg => strip (lower msg))
            (filter (fun msg => nonblank msg) messages) in
      let counter := Counter normalized in
      let top_items := most_common limit counter in
      map (fun '(message, count) =>
             {| top_message := message;
                top_count := count;
                top_percentage :=
                  round2 (Qnat count / Qnat (length messages) * 100) |})
          top_items
  end.

(** Entries carry a [datetime] (or nothing) here; the branch of the source
    that re-parses ISO strings read back from storage is not reached by
    parser output. *)
Definition _get_time_distribution (log_entries : list Entry)
  : gmap string nat :=
  fold_left
    (fun hour_counts entry =>
       match timestamp entry with
       | Some ts =>
           let key := pretty (dt_hour ts) in
           <[key := default 0 (hour_counts !! key) + 1]> hour_counts
       | None => hour_counts
       end)
    log_entries ∅.

Definition messages_at (level : Level) (log_entries : list Entry) : list str :=
  map message (filter (fun entry => log_level entry = Some level) log_entries).

Definition analyze (log_entries : list Entry) : Analysis :=
  match log_entries with
  | [] => _empty_analysis
  | _ =>
      let level_counts := Counter (map log_level log_entries) in
      {| total_entries := length log_entries;
         error_count := counter_get (Some ERROR) level_counts;
         warning_count := counter_get (Some WARNING) level_counts;
         info_count := counter_get (Some INFO) level_counts;
         debug_count := counter_get (Some DEBUG) level_counts;
         top_errors := _get_top_messages (messages_at ERROR log_entries) 10;
         top_warnings := _get_top_messages (messages_at WARNING log_entries) 10;
         time_distribution := _get_time_distribution log_entries |}
  end.

End LogAnalyzer.

(** ** [difflib.SequenceMatcher(None, a, b).ratio()]

    The matcher of Python's standard library, as [calculate_similarity]
    uses it: no junk predicate, [autojunk] on. *)

Module Difflib.

Section Matcher.
Variables a b : str.

(** [__chain_b]: with 200 or more characters in [b], a character that
    fills more than 1% of it (plus one) is "popular" and is dropped from
    the index [b2j]. *)
Definition popular (c : ascii) : bool :=
  (200 <=? length b)
  && (length b / 100 + 1 <? length (filter (fun x => x = c) b)).

Fixpoint positions (c : ascii) (j : nat) (s : str) : list nat :=
  match s with
  | [] => []
  | x :: s' =>
      if ascii_eqb x c then j :: positions c (S j) s' else positions c (S j) s'
  end.

Definition b2j (c : ascii) : list nat :=
  if popular c then [] else positions c 0 b.

(** The inner [for j in b2j[a[i]]] of [find_longest_match]: [j2len] maps
    a position of [b] to the length of the match ending there and at
    [i - 1]. *)
Fixpoint row (i blo bhi : nat) (j2len : gmap nat nat) (js : list nat)
    (st : gmap nat nat * (nat * nat * nat))
  : gmap nat nat * (nat * nat * nat) :=
  match js with
  | [] => st
  | j :: js' =>
      if j <? blo then row i blo bhi j2len js' st
      else if bhi <=? j then st
      else
        let '(newj2len, (besti, bestj, bestsize)) := st in
        let k := match j with
                 | 0 => 1
                 | S j1 => default 0 (j2len !! j1) + 1
                 end in
        let best := if bestsize <? k then (i + 1 - k, j + 1 - k, k)
                    else (besti, bestj, bestsize) in
        row i blo bhi j2len js' (<[j := k]> newj2len, best)
  end.

(** The outer [for i in range(alo, ahi)]; [n] is [ahi - i]. *)
Fixpoint rows (n i blo bhi : nat) (j2len : gmap nat nat)
    (best : nat * nat * nat) : nat * nat * nat :=
  match n with
  | 0 => best
  | S n' =>
      match a !! i with
      | None => best
      | Some c =>
          let '(newj2len, best') := row i blo bhi j2len (b2j c) (∅, best) in
          rows n' (S i) blo bhi newj2len best'
      end
  end.

(** The first [while]: grow the block to the left over equal
    characters (popular ones are met only here).  The recursion is on
    [besti], which the loop counts down. *)
Fixpoint extend_left (alo blo besti bestj bestsize : nat) : nat * nat * nat :=
  match besti with
  | 0 => (besti, bestj, bestsize)
  | S i1 =>
      if (alo <? besti) && (blo <? bestj)
         && bool_decide (is_Some (a !! i1) ∧ a !! i1 = b !! (bestj - 1))
      then extend_left alo blo i1 (bestj - 1) (bestsize + 1)
      else (besti, bestj, bestsize)
  end.

(** The second [while]: grow it to the right.  [gap] is
    [ahi - (besti + bestsize)], so the test [besti + bestsize < ahi] of
    the source is [gap > 0]. *)
Fixpoint extend_right (gap bhi besti bestj bestsize : nat) : nat * nat * nat :=
  match gap with
  | 0 => (besti, bestj, bestsize)
  | S gap' =>
      if (bestj + bestsize <? bhi)
         && bool_decide (is_Some (a !! (besti + bestsize))
                         ∧ a !! (besti + bestsize) = b !! (bestj + bestsize))
      then extend_right gap' bhi besti bestj (bestsize + 1)
      else (besti, bestj, bestsize)
  end.

(** [find_longest_match(alo, ahi, blo, bhi)].  The two further loops of
    the source extend over junk only, and there is none. *)
Definition find_longest_match (alo ahi blo bhi : nat) : nat * nat * nat :=
  let '(besti, bestj, bestsize) :=
    rows (ahi - alo) alo blo bhi ∅ (alo, blo, 0) in
  let '(besti, bestj, bestsize) :=
    extend_left alo blo besti bestj bestsize in
  extend_right (ahi - (besti + bestsize)) bhi besti bestj bestsize.

(** The work loop of [get_matching_blocks]: [queue.pop()] takes the item
    pushed last. *)
Fixpoint blocks_loop (fuel : nat) (queue : list (nat * nat * nat * nat))
    (matching_blocks : list (nat * nat * nat)) : list (nat * nat * nat) :=
  match fuel with
  | 0 => matching_blocks
  | S fuel' =>
      match queue with
      | [] => matching_blocks
      | (alo, ahi, blo, bhi) :: queue' =>
          let '(i, j, k) := find_longest_match alo ahi blo bhi in
          match k with
          | 0 => blocks_loop fuel' queue' matching_blocks
          | _ =>
              let q1 := if (alo <? i) && (blo <? j)
                        then (alo, i, blo, j) :: queue' else queue' in
              let q2 := if (i + k <? ahi) && (j + k <? bhi)
                        then (i + k, ahi, j + k, bhi) :: q1 else q1 in
              blocks_loop fuel' q2 (matching_blocks ++ [(i, j, k)])
          end
      end
  end.

(** Every pass either drops an item or splits it around a non-empty
    block, so [2 * len(a) + 2] passes empty the queue
    ([matching_blocks_complete] below).  The source then sorts the blocks
    and merges adjacent ones, which leaves the sum of their sizes as it
    is. *)
Definition matching_blocks : list (nat * nat * nat) :=
  blocks_loop (2 * length a + 2) [(0, length a, 0, length b)] [].

Definition matches : nat :=
  foldr (fun '(_, _, k) acc => k + acc) 0 matching_blocks.

(** [ratio()] *)
Definition ratio : Q :=
  match (length a + length b)%nat with
  | 0%nat => 1%Q
  | len => (2 * Qnat matches / Qnat len)%Q
  end.
End Matcher.

End Difflib.

(** ** [app/pattern_detection.py] *)

Module PatternDetection.

Inductive PatternType : Type :=
  url | ip | http_status | sql | api_endpoint | exception.

(** The [examples] of a pattern record: plain strings, or values with
    their counts. *)
Inductive Examples : Type :=
| ExStrings (xs : list str)
| ExCodes (xs : list (nat * nat))
| ExCounted (xs : list (str * nat)).

Record PatternRecord : Type := MkPattern {
  p_type : PatternType;
  p_pattern : string;
  p_count : nat;
  p_examples : Examples
}.

(** A member of a group is a reference to a dict of the batch: its
    position in the batch and the entry found there. *)
Record Group : Type := MkGroup {
  g_id : nat;
  representative : str;
  count : nat;
  g_log_level : option Level;
  entries : list (nat * Entry);
  similarity_score : Q
}.

Record Detection : Type := MkDetection {
  patterns : list PatternRecord;
  groups : list Group;
  total_patterns : nat;
  total_groups : nat;
  analyzed_logs : option nat
}.

Definition not_space (c : ascii) : bool := negb (is_space c).

(** [https?://[^\s]+] *)
Definition url_pattern : regex :=
  seqs [ch "http"; Rep (is_char "s") 0 (Some 1); ch "://";
        Rep not_space 1 None].

(** [\b\d{1,3}\.\d{1,3}\.\d{1,3}\.\d{1,3}\b] *)
Definition octet : regex := Rep is_digit 1 (Some 3).

Definition ip_pattern : regex :=
  seqs [WordB; octet; ch "."; octet; ch "."; octet; ch "."; octet; WordB].

(** [\b(?:HTTP/\d\.\d\s+)?(\d{3})\b] *)
Definition status_pattern : regex :=
  seqs [WordB;
        Opt (seqs [ch "HTTP/"; Cls is_digit; ch "."; Cls is_digit;
                   Rep is_space 1 None]);
        Cap 1 (digits 3);
        WordB].

(** [(?:GET|POST|PUT|DELETE|PATCH)\s+([/\w\-]+)] *)
Definition path_char (c : ascii) : bool :=
  is_char "/" c || is_word c || is_char "-" c.

Definition endpoint_pattern : regex :=
  seqs [alts [ch "GET"; ch "POST"; ch "PUT"; ch "DELETE"; ch "PATCH"];
        Rep is_space 1 None;
        Cap 1 (Rep path_char 1 None)].

(** [(\w+Exception|\w+Error|\w+Warning)] *)
Definition exception_pattern : regex :=
  Cap 1 (alts [Seq (Rep is_word 1 None) (ch "Exception");
               Seq (Rep is_word 1 None) (ch "Error");
               Seq (Rep is_word 1 None) (ch "Warning")]).

Definition sql_keywords : list string :=
  ["SELECT"; "INSERT"; "UPDATE"; "DELETE"; "CREATE"; "DROP"; "ALTER"]%string.

Definition has_sql_keyword (msg : str) : bool :=
  existsb (fun keyword => contains (txt keyword) (upper msg)) sql_keywords.

Section Extract.
(** [list(set(xs))]: the distinct elements of [xs] in the iteration order
    of a Python set, which the language leaves open. *)
Variable set_list : list str -> list str.

Definition if_any {A : Type} (xs : list A) (r : PatternRecord)
  : list PatternRecord :=
  match xs with [] => [] | _ => [r] end.

(** The six extractors run one after the other over all messages; each
    appends its record when it found something. *)
Definition extract_patterns (log_entries : list Entry) : list PatternRecord :=
  let messages := map message log_entries in
  let urls := concat (map (re_findall url_pattern None) messages) in
  let ips := concat (map (re_findall ip_pattern None) messages) in
  let status_codes :=
    map int_of_digits
        (filter (fun s => forallb is_digit s = true)
                (concat (map (re_findall status_pattern (Some 1)) messages))) in
  let sql_errors :=
    map (take 100) (filter (fun msg => has_sql_keyword msg = true) messages) in
  let endpoints :=
    concat (map (re_findall endpoint_pattern (Some 1)) messages) in
  let exceptions :=
    concat (map (re_findall exception_pattern (Some 1)) messages) in
  if_any urls
    {| p_type := url; p_pattern := "URL pattern";
       p_count := length urls;
       p_examples := ExStrings (take 5 (set_list urls)) |}
  ++ if_any ips
    {| p_type := ip; p_pattern := "IP address pattern";
       p_count := length ips;
       p_examples := ExStrings (take 5 (set_list ips)) |}
  ++ if_any status_codes
    {| p_type := http_status; p_pattern := "HTTP status codes";
       p_count := length status_codes;
       p_examples := ExCodes (most_common 5 (Counter status_codes)) |}
  ++ if_any sql_errors
    {| p_type := sql; p_pattern := "SQL-related errors";
       p_count := length sql_errors;
       p_examples := ExStrings (take 5 (set_list sql_errors)) |}
  ++ if_any endpoints
    {| p_type := api_endpoint; p_pattern := "API endpoints";
       p_count := length endpoints;
       p_examples := ExCounted (most_common 5 (Counter endpoints)) |}
  ++ if_any exceptions
    {| p_type := exception; p_pattern := "Exception types";
       p_count := length exceptions;
       p_examples := ExCounted (most_common 5 (Counter exceptions)) |}.
End Extract.

(** [calculate_similarity] *)
Definition word_set (s : str) : gset str := list_to_set (split_ws s).

Definition calculate_similarity (str1 str2 : str) : Q :=
  match str1, str2 with
  | [], _ | _, [] => 0
  | _, _ =>
      let words1 := word_set str1 in
      let words2 := word_set str2 in
      if bool_decide (words1 = ∅) || bool_decide (words2 = ∅) then 0
      else
        let intersection := size (words1 ∩ words2) in
        let union := size (words1 ∪ words2) in
        let jaccard :=
          if 0 <? union then Qnat intersection / Qnat union else 0 in
        let sequence_similarity := Difflib.ratio str1 str2 in
        jaccard * (4 # 10) + sequence_similarity * (6 # 10)
  end%Q.

(** The dict a seed starts its group with. *)
Definition new_group (id i : nat) (entry1 : Entry) : Group :=
  {| g_id := id;
     representative := take 100 (message entry1);
     count := 1;
     g_log_level := log_level entry1;
     entries := [(i, entry1)];
     similarity_score := 1 |}.

(** [group["count"] += 1; group["entries"].append(entry2)] *)
Definition add_member (group : Group) (j : nat) (entry2 : Entry) : Group :=
  {| g_id := g_id group;
     representative := representative group;
     count := count group + 1;
     g_log_level := g_log_level group;
     entries := entries group ++ [(j, entry2)];
     similarity_score := similarity_score group |}.

(** The inner loop of [group_similar_errors], from position [j] on: the
    state is the group under construction and the processed set. *)
Fixpoint scan_candidates (message1 : str) (min_similarity : Q) (j : nat)
    (rest : list Entry) (st : Group * gset nat) : Group * gset nat :=
  match rest with
  | [] => st
  | entry2 :: rest' =>
      let '(group, processed) := st in
      if decide (j ∈ processed)
      then scan_candidates message1 min_similarity (S j) rest' st
      else
        let message2 := lower (message entry2) in
        match message2 with
        | [] => scan_candidates message1 min_similarity (S j) rest' st
        | _ =>
            let similarity := calculate_similarity message1 message2 in
            if Qle_bool min_similarity similarity
            then scan_candidates message1 min_similarity (S j) rest'
                   (add_member group j entry2, {[j]} ∪ processed)
            else scan_candidates message1 min_similarity (S j) rest' st
        end
  end.

(** The outer loop, from position [i] on: the state is the list of groups
    kept so far and the processed set. *)
Fixpoint group_loop (min_similarity : Q) (i : nat) (rest : list Entry)
    (st : list Group * gset nat) : list Group * gset nat :=
  match rest with
  | [] => st
  | entry1 :: rest' =>
      let '(groups, processed) := st in
      if decide (i ∈ processed)
      then group_loop min_similarity (S i) rest' st
      else
        let message1 := lower (message entry1) in
        match message1 with
        | [] => group_loop min_similarity (S i) rest' st
        | _ =>
            let group := new_group (length groups + 1) i entry1 in
            let '(group, processed) :=
              scan_candidates message1 min_similarity (S i) rest'
                              (group, processed) in
            if 1 <? count group
            then group_loop min_similarity (S i) rest'
                   (groups ++ [group], {[i]} ∪ processed)
            else group_loop min_similarity (S i) rest' (groups, processed)
        end
  end.

(** [groups.sort(key=count, reverse=True)]: stable, larger groups first. *)
Fixpoint insert_group (x : Group) (l : list Group) : list Group :=
  match l with
  | [] => [x]
  | y :: l' => if count x <? count y then y :: insert_group x l' else x :: l
  end.

Definition sort_groups (l : list Group) : list Group := foldr insert_group [] l.

Definition group_similar_errors (log_entries : list Entry) (min_similarity : Q)
  : list Group :=
  match log_entries with
  | [] => []
  | _ =>
      let '(groups, _) := group_loop min_similarity 0 log_entries ([], ∅) in
      take 20 (sort_groups groups)
  end.

Definition is_error_or_warning (entry : Entry) : bool :=
  bool_decide (log_level entry = Some ERROR ∨ log_level entry = Some WARNING).

Definition detect_patterns (set_list : list str -> list str)
    (log_entries : list Entry) (min_similarity : Q) : Detection :=
  let nothing :=
    {| patterns := []; groups := []; total_patterns := 0; total_groups := 0;
       analyzed_logs := None |} in
  match log_entries with
  | [] => nothing
  | _ =>
      let error_warning_logs :=
        filter (fun entry => is_error_or_warning entry = true) log_entries in
      match error_warning_logs with
      | [] => nothing
      | _ =>
          let patterns := extract_patterns set_list error_warning_logs in
          let groups :=
            group_similar_errors error_warning_logs min_similarity in
          {| patterns := patterns;
             groups := groups;
             total_patterns := length patterns;
             total_groups := length groups;
             analyzed_logs := Some (length error_warning_logs) |}
      end
  end.

End PatternDetection.

(** ** [app/ml/anomaly_detection.py] *)

Module AnomalyDetector.

Record Anomaly : Type := MkAnomaly {
  a_entry : Entry;
  anomaly_score : Q;
  a_index : nat
}.

Record TopAnomaly : Type := MkTopAnomaly {
  ta_line_number : nat;
  ta_log_level : option Level;
  ta_message : str;
  ta_timestamp : option datetime;
  ta_anomaly_score : Q
}.

(** The four texts of [_get_recommendation]. *)
Inductive Recommendation : Type :=
  HighRate | MediumRate | LowRate | VeryLowRate.

(** The dict returned by [get_anomaly_summary]; the keys that only one of
    its two shapes has are optional. *)
Record Summary : Type := MkSummary {
  has_anomalies : bool;
  anomaly_count : nat;
  anomaly_percentage : Q;
  anomalies : option (list Anomaly);
  total_entries : option nat;
  top_anomalies : option (list TopAnomaly);
  recommendation : option Recommendation
}.

Definition error_keywords : list string :=
  ["error"; "exception"; "failed"; "timeout"; "deadlock"; "crash"]%string.

(** [date.toordinal()] and [date.weekday()] (Monday is 0). *)
Definition days_before_year (y : nat) : nat :=
  let y1 := y - 1 in y1 * 365 + y1 / 4 - y1 / 100 + y1 / 400.

Definition days_before_month (y m : nat) : nat :=
  foldr (fun k acc => days_in_month y k + acc) 0 (seq 1 (m - 1)).

Definition toordinal (t : datetime) : nat :=
  days_before_year (dt_year t) + days_before_month (dt_year t) (dt_month t)
  + dt_day t.

Definition weekday (t : datetime) : nat := (toordinal t + 6) mod 7.

Definition level_encoded (l : option Level) : nat :=
  match l with
  | Some ERROR => 3
  | Some WARNING => 2
  | Some INFO => 1
  | Some DEBUG => 0
  | None => 1
  end.

(** One row of [extract_features]. *)
Definition features_of (entry : Entry) : list nat :=
  let '(hour, day_of_week) :=
    match timestamp entry with
    | Some ts => (dt_hour ts, weekday ts)
    | None => (12, 0)
    end in
  let message_lower := lower (message entry) in
  let has_error_keywords :=
    existsb (fun keyword => contains (txt keyword) message_lower)
            error_keywords in
  [hour; day_of_week; level_encoded (log_level entry);
   length (message entry); if has_error_keywords then 1 else 0].

Definition extract_features (log_entries : list Entry) : list (list nat) :=
  map features_of log_entries.

(** Stable sort by ascending score ([anomalies.sort(key=...)]). *)
Fixpoint insert_anomaly (x : Anomaly) (l : list Anomaly) : list Anomaly :=
  match l with
  | [] => [x]
  | y :: l' =>
      if Qle_bool (anomaly_score y) (anomaly_score x)
         && negb (Qle_bool (anomaly_score x) (anomaly_score y))
      then y :: insert_anomaly x l' else x :: l
  end.

Section Detector.
(** scikit-learn, outside the repository: [StandardScaler().fit_transform]
    followed by [IsolationForest(contamination, random_state=42,
    n_estimators=100)], giving per row the prediction of [fit_predict]
    ([-1] outlier, [1] inlier) and the value of [score_samples]; [None]
    when the library raises (it checks [contamination] when fitting). *)
Variable isolation_forest : Q -> list (list nat) -> option (list (Z * Q)).

(** The detector object: [__init__] only stores its argument. *)
Variable contamination : Q.

Fixpoint flagged (idx : nat) (rows : list (Entry * (Z * Q))) : list Anomaly :=
  match rows with
  | [] => []
  | (entry, (prediction, score)) :: rows' =>
      if (prediction =? -1)%Z
      then {| a_entry := entry; anomaly_score := score; a_index := idx |}
             :: flagged (S idx) rows'
      else flagged (S idx) rows'
  end.

Definition detect_anomalies (log_entries : list Entry)
  : option (list Anomaly) :=
  if length log_entries <? 10 then Some []
  else
    let features := extract_features log_entries in
    match isolation_forest contamination features with
    | None => None
    | Some predictions =>
        Some (foldr insert_anomaly []
                    (flagged 0 (zip log_entries predictions)))
    end.

Definition _get_recommendation (anomaly_count total_count : nat)
  : Recommendation :=
  let percentage := (Qnat anomaly_count / Qnat total_count * 100)%Q in
  if negb (Qle_bool percentage 20) then HighRate
  else if negb (Qle_bool percentage 10) then MediumRate
  else if negb (Qle_bool percentage 5) then LowRate
  else VeryLowRate.

Definition get_anomaly_summary (log_entries : list Entry) : option Summary :=
  match detect_anomalies log_entries with
  | None => None
  | Some [] =>
      Some {| has_anomalies := false;
              anomaly_count := 0;
              anomaly_percentage := 0;
              anomalies := Some [];
              total_entries := None;
              top_anomalies := None;
              recommendation := None |}
  | Some found =>
      let anomaly_count := length found in
      let total_count := length log_entries in
      Some {| has_anomalies := true;
              anomaly_count := anomaly_count;
              anomaly_percentage :=
                round2 (Qnat anomaly_count / Qnat total_count * 100);
              anomalies := None;
              total_entries := Some total_count;
              top_anomalies :=
                Some (map (fun anom =>
                             {| ta_line_number := line_number (a_entry anom);
                                ta_log_level := log_level (a_entry anom);
                                ta_message := take 200 (message (a_entry anom));
                                ta_timestamp := timestamp (a_entry anom);
                                ta_anomaly_score := anomaly_score anom |})
                          (take 10 found));
              recommendation :=
                Some (_get_recommendation anomaly_count total_count) |}
  end.
End Detector.

End AnomalyDetector.

(** * Auxiliary definitions for the properties *)

(** ** The message, in the words of the specification

    "Start from the full line; if a timestamp was found, remove the
    occurrences of each timestamp shape; if a level was found, remove the
    occurrences of each pattern of that level; collapse white space and
    trim; an empty result falls back to the line."  [remove] says how the
    occurrences of a list of patterns are taken out. *)

Definition derive_message (remove : list regex -> str -> str) (line : str)
  : str :=
  let m := line in
  let m := match extract_timestamp line with
           | Some _ => remove TIMESTAMP_PATTERNS m
           | None => m
           end in
  let m := match detect_log_level line with
           | Some level => remove (compiled_level_patterns level) m
           | None => m
           end in
  let m := join (txt " ") (split_ws m) in
  match m with [] => line | _ => m end.

(** "the first occurrence of each": [re.sub] with [count=1], pattern after
    pattern. *)
Definition remove_first_of_each (pats : list regex) (m : str) : str :=
  fold_left (fun m p => re_sub_empty_first p m) pats m.

(** ** Sample inputs *)

Definition boom_line : str := txt "  ERROR boom  ".

Definition boom_entry : Entry :=
  {| line_number := 1; log_level := Some ERROR; timestamp := None;
     message := txt "boom"; raw_line := txt "ERROR boom" |}.

Definition two_stamps : str := txt "2024-13-45 10:30:45 15/01/2024 10:30:45".

Definition doubled_stamp : str :=
  txt "2024-01-15 10:30:45 2024-01-16 10:30:45 x".

(** A parsed INFO line holding a request. *)
Definition info_request : list Entry :=
  parse_file (txt "INFO GET /api/users 200").

(** An entry with its level replaced. *)
Definition with_level (l : option Level) (e : Entry) : Entry :=
  {| line_number := line_number e; log_level := l;
     timestamp := timestamp e; message := message e;
     raw_line := raw_line e |}.

(** The summary returned when nothing is flagged. *)
Definition no_anomalies : AnomalyDetector.Summary :=
  {| AnomalyDetector.has_anomalies := false;
     AnomalyDetector.anomaly_count := 0;
     AnomalyDetector.anomaly_percentage := 0;
     AnomalyDetector.anomalies := Some [];
     AnomalyDetector.total_entries := None;
     AnomalyDetector.top_anomalies := None;
     AnomalyDetector.recommendation := None |}.

(** How often [k] occurs in [xs]. *)
Definition occurrences {K : Type} `{EqDecision K} (k : K) (xs : list K)
  : nat :=
  length (filter (fun x => x = k) xs).

(** What one shape yields on a line: the parse of its leftmost match. *)
Definition shape_timestamp (line : str) (p : regex) : option datetime :=
  re_search p line ≫= parse_match.

(** ** The candidates a seed absorbs

    [absorbed message1 tau processed j rest] lists, with their positions,
    the entries of [rest] (which starts at position [j]) that one scan of
    the inner loop adds to the seed's group. *)

Definition qualifies (message1 : str) (min_similarity : Q)
    (processed : gset nat) (j : nat) (entry2 : Entry) : bool :=
  bool_decide (j ∉ processed)
  && bool_decide (lower (message entry2) <> [])
  && Qle_bool min_similarity
       (PatternDetection.calculate_similarity message1
          (lower (message entry2))).

Fixpoint absorbed (message1 : str) (min_similarity : Q)
    (processed : gset nat) (j : nat) (rest : list Entry)
  : list (nat * Entry) :=
  match rest with
  | [] => []
  | entry2 :: rest' =>
      if qualifies message1 min_similarity processed j entry2
      then (j, entry2)
             :: absorbed message1 min_similarity processed (S j) rest'
      else absorbed message1 min_similarity processed (S j) rest'
  end.

Definition add_members (g : PatternDetection.Group) (ms : list (nat * Entry))
  : PatternDetection.Group :=
  {| PatternDetection.g_id := PatternDetection.g_id g;
     PatternDetection.representative := PatternDetection.representative g;
     PatternDetection.count := PatternDetection.count g + length ms;
     PatternDetection.g_log_level := PatternDetection.g_log_level g;
     PatternDetection.entries := PatternDetection.entries g ++ ms;
     PatternDetection.similarity_score :=
       PatternDetection.similarity_score g |}.

(** The number of entries that sit in some returned group. *)
Definition grouped_total (gs : list PatternDetection.Group) : nat :=
  foldr (fun g acc => PatternDetection.count g + acc) 0 gs.

Definition chain_batch : list Entry :=
  parse_file (txt "ERROR aaaa bbbb cccc dddd eeee
ERROR aaaa bbbb
ERROR aaaa
ERROR bbbb").

(** Its first entry, as parsed, and the entries after it. *)
Definition chain_seed : Entry :=
  {| line_number := 1; log_level := Some ERROR; timestamp := None;
     message := txt "aaaa bbbb cccc dddd eeee";
     raw_line := txt "ERROR aaaa bbbb cccc dddd eeee" |}.

Definition chain_rest : list Entry := drop 1 chain_batch.

(** A group kept by the loop: its seed, then members found after it. *)
Definition seeded_in (i : nat) (rest : list Entry)
    (g : PatternDetection.Group) : Prop :=
  exists s e ms,
    PatternDetection.entries g = (s, e) :: ms
    /\ i <= s /\ rest !! (s - i) = Some e
    /\ Forall (fun m => s < m.1 /\ rest !! (m.1 - i) = Some m.2) ms.

(** ** Measures for the matching-block loop *)

(** A block that starts at or after [lo] in [a] and ends by [hi]. *)
Definition within (lo hi : nat) (best : nat * nat * nat) : Prop :=
  lo <= best.1.1 /\ best.1.1 + best.2 <= hi.

(** Every recorded match length is at most [v]. *)
Definition bounded (m : gmap nat nat) (v : nat) : Prop :=
  forall j x, m !! j = Some x -> x <= v.

(** Twice the length of the slice of [a] an item covers, plus one. *)
Definition weight (item : nat * nat * nat * nat) : nat :=
  2 * (item.1.1.2 - item.1.1.1) + 1.

Definition ordered (item : nat * nat * nat * nat) : Prop :=
  item.1.1.1 <= item.1.1.2.

Definition total_weight (queue : list (nat * nat * nat * nat)) : nat :=
  foldr (fun item acc => weight item + acc) 0 queue.

(** * Further parts of the repository *)

(** [re.sub(pattern, repl, s)] for a replacement text without group
    references and a pattern that matches no empty text, as the patterns of
    [normalize_message] are: every leftmost non-overlapping match gives way
    to [repl]. *)
Fixpoint sub_repl (r : regex) (repl : str) (prev : option ascii) (skip : nat)
    (s : str) : str :=
  match s with
  | [] => []
  | c :: s' =>
      match skip with
      | S k => sub_repl r repl (Some c) k s'
      | 0 =>
          match match_here r prev s with
          | Some (S k, _) => repl ++ sub_repl r repl (Some c) k s'
          | _ => c :: sub_repl r repl (Some c) 0 s'
          end
      end
  end.

Definition re_sub (r : regex) (repl : string) (s : str) : str :=
  sub_repl r (txt repl) None 0 s.

(** ** [normalize_message] of [app/pattern_detection.py] *)

Module Normalize.

(** [\b\d{4}-\d{2}-\d{2}\b] *)
Definition iso_date_pattern : regex :=
  seqs [WordB; digits 4; ch "-"; digits 2; ch "-"; digits 2; WordB].

(** [\b\d{2}/\d{2}/\d{4}\b] *)
Definition slash_date_pattern : regex :=
  seqs [WordB; digits 2; ch "/"; digits 2; ch "/"; digits 4; WordB].

(** [\b\d{4,}\b] *)
Definition number_pattern : regex :=
  seqs [WordB; Rep is_digit 4 None; WordB].

Definition normalize_message (message : str) : str :=
  match message with
  | [] => []
  | _ =>
      let normalized := message in
      let normalized := re_sub PatternDetection.ip_pattern "<IP>" normalized in
      let normalized := re_sub iso_date_pattern "<DATE>" normalized in
      let normalized := re_sub slash_date_pattern "<DATE>" normalized in
      let normalized := re_sub number_pattern "<NUMBER>" normalized in
      normalized
  end.

End Normalize.

(** ** The streaming loop of [process_large_log_file] in [app/tasks.py]

    The file is read line by line; parsed entries gather in a buffer that is
    handed to [_save_entries_batch] whenever it holds 100 of them, and once
    more at the end if something is left.  [saved] lists the batches in the
    order of these calls. *)

Module Tasks.

Record StreamState : Type := MkStream {
  total_lines : nat;
  parsed_entries : list Entry;
  saved : list (list Entry)
}.

Fixpoint stream_loop (line_number : nat) (lines : list str) (st : StreamState)
  : StreamState :=
  match lines with
  | [] => st
  | line :: lines' =>
      match parse_line line line_number with
      | Some parsed =>
          let buffer := parsed_entries st ++ [parsed] in
          if 100 <=? length buffer
          then stream_loop (S line_number) lines'
                 {| total_lines := total_lines st + 1;
                    parsed_entries := [];
                    saved := saved st ++ [buffer] |}
          else stream_loop (S line_number) lines'
                 {| total_lines := total_lines st + 1;
                    parsed_entries := buffer;
                    saved := saved st |}
      | None => stream_loop (S line_number) lines' st
      end
  end.

(** The loop over the whole file, and the flush of what is left. *)
Definition stream_file (lines : list str) : StreamState :=
  let st := stream_loop 1 lines
              {| total_lines := 0; parsed_entries := []; saved := [] |} in
  match parsed_entries st with
  | [] => st
  | rest =>
      {| total_lines := total_lines st;
         parsed_entries := rest;
         saved := saved st ++ [rest] |}
  end.

End Tasks.

(** ** Notions used by the further properties *)

(** A calendar date and a time of day that exist. *)
Definition valid_datetime (t : datetime) : Prop :=
  1 <= dt_year t < 10000 /\ 1 <= dt_month t <= 12
  /\ 1 <= dt_day t <= days_in_month (dt_year t) (dt_month t)
  /\ dt_hour t <= 23 /\ dt_minute t <= 59 /\ dt_second t <= 59.

(** No white space at either end. *)
Definition trimmed (s : str) : Prop :=
  (forall c, head s = Some c -> is_space c = false)
  /\ (forall c, last s = Some c -> is_space c = false).

(** The characters of a text that are not white space. *)
Definition ink (s : str) : str := filter (fun c => is_space c = false) s.

(** An entry renumbered [k] lines further down. *)
Definition shift_line (k : nat) (e : Entry) : Entry :=
  {| line_number := line_number e + k; log_level := log_level e;
     timestamp := timestamp e; message := message e;
     raw_line := raw_line e |}.

(** The batch positions a group holds. *)
Definition positions (g : PatternDetection.Group) : list nat :=
  (PatternDetection.entries g).*1.

(** The words of [s.split()]: not empty, and free of white space. *)
Definition is_wordlike (w : str) : Prop :=
  w <> [] /\ Forall (fun c => is_space c = false) w.




(** A text without a decimal digit. *)
Definition digit_free (s : str) : Prop :=
  Forall (fun c => is_digit c = false) s.

(** A pattern that finds nothing to match at the start of a text without
    digits. *)
Definition needs_digit (r : regex) : Prop :=
  forall prev s, digit_free s -> match_here r prev s = None.

(** The messages [_get_top_messages] counts: the non-blank ones, lower-cased
    and stripped. *)
Definition normalized_messages (messages : list str) : list str :=
  map (fun msg => strip (lower msg))
      (filter (fun msg => LogAnalyzer.nonblank msg) messages).

(** More frequent messages first. *)
Definition more_frequent (t1 t2 : LogAnalyzer.TopMessage) : Prop :=
  LogAnalyzer.top_count t2 <= LogAnalyzer.top_count t1.

(** The number of entries stamped with hour [h]. *)
Definition hour_count (h : nat) (log_entries : list Entry) : nat :=
  length (filter (fun e => dt_hour <$> timestamp e = Some h) log_entries).

(** A group as the outer loop builds it, in a batch that starts at
    position [i]: a seed with a non-empty message and the candidates its
    scan absorbed, of which there is at least one. *)
Definition formed_in (tau : Q) (i : nat) (rest : list Entry)
    (g : PatternDetection.Group) : Prop :=
  exists id s e P,
    i <= s /\ rest !! (s - i) = Some e /\ lower (message e) <> []
    /\ absorbed (lower (message e)) tau P (S s) (drop (S (s - i)) rest) <> []
    /\ g = add_members (PatternDetection.new_group id s e)
             (absorbed (lower (message e)) tau P (S s)
                (drop (S (s - i)) rest)).

(** The processed set covers the positions of the groups kept so far, and
    no position is held twice. *)
Definition covered (gs : list PatternDetection.Group) (P : gset nat) : Prop :=
  NoDup (concat (map positions gs))
  /\ forall p, p ∈ concat (map positions gs) -> p ∈ P.

(** Larger groups first. *)
Definition larger_first (g1 g2 : PatternDetection.Group) : Prop :=
  PatternDetection.count g2 <= PatternDetection.count g1.

(** ** Measures for the matching blocks, on the side of [b] and in total *)

Definition within_b (lo hi : nat) (best : nat * nat * nat) : Prop :=
  lo <= best.1.2 /\ best.1.2 + best.2 <= hi.

(** A match ending at [j] does not reach back before [blo]. *)
Definition bounded_b (blo : nat) (m : gmap nat nat) : Prop :=
  forall j x, m !! j = Some x -> x <= j + 1 - blo.

Definition ordered_b (item : nat * nat * nat * nat) : Prop :=
  item.1.2 <= item.2.

Definition size_sum (blocks : list (nat * nat * nat)) : nat :=
  foldr (fun '(_, _, k) acc => k + acc) 0 blocks.

Definition span_a (queue : list (nat * nat * nat * nat)) : nat :=
  foldr (fun item acc => (item.1.1.2 - item.1.1.1) + acc) 0 queue.

Definition span_b (queue : list (nat * nat * nat * nat)) : nat :=
  foldr (fun item acc => (item.2 - item.1.2) + acc) 0 queue.

(** ** Anomalies *)

(** Lower (more anomalous) scores first. *)
Definition lower_score_first (a1 a2 : AnomalyDetector.Anomaly) : Prop :=
  (AnomalyDetector.anomaly_score a1 <= AnomalyDetector.anomaly_score a2)%Q.

(** A stand-in for the outlier model: it flags the rows of level [ERROR]
    and scores a row by the negated length of its message. *)
Definition flag_errors (contamination : Q) (features : list (list nat))
  : option (list (Z * Q)) :=
  Some (map (fun row =>
               (if decide (row !! 2 = Some 3) then (-1)%Z else 1%Z,
                Qopp (Qnat (default 0 (row !! 3)))))
            features).

(** Twelve entries, three of them errors. *)
Definition mixed_batch : list Entry :=
  repeat (with_level (Some INFO) boom_entry) 4
  ++ [chain_seed; boom_entry]
  ++ repeat (with_level (Some DEBUG) boom_entry) 5
  ++ [boom_entry].

(** What [detect_anomalies] finds in it under [flag_errors]. *)
Definition mixed_found : list AnomalyDetector.Anomaly :=
  [ {| AnomalyDetector.a_entry := chain_seed;
       AnomalyDetector.anomaly_score := (-24 # 1)%Q;
       AnomalyDetector.a_index := 4 |};
    {| AnomalyDetector.a_entry := boom_entry;
       AnomalyDetector.anomaly_score := (-4 # 1)%Q;
       AnomalyDetector.a_index := 5 |};
    {| AnomalyDetector.a_entry := boom_entry;
       AnomalyDetector.anomaly_score := (-4 # 1)%Q;
       AnomalyDetector.a_index := 11 |} ].

(** The thresholds of [_get_recommendation], in whole numbers: more than a
    fifth, a tenth, a twentieth of the entries. *)
Definition rate_class (anomaly_count total_count : nat)
  : AnomalyDetector.Recommendation :=
  if total_count <? 5 * anomaly_count then AnomalyDetector.HighRate
  else if total_count <? 10 * anomaly_count then AnomalyDetector.MediumRate
  else if total_count <? 20 * anomaly_count then AnomalyDetector.LowRate
  else AnomalyDetector.VeryLowRate.

(** The summary of [mixed_batch] under [flag_errors]. *)
Definition mixed_summary : AnomalyDetector.Summary :=
  {| AnomalyDetector.has_anomalies := true;
     AnomalyDetector.anomaly_count := 3;
     AnomalyDetector.anomaly_percentage := 25;
     AnomalyDetector.anomalies := None;
     AnomalyDetector.total_entries := Some 12;
     AnomalyDetector.top_anomalies :=
       Some (map (fun a =>
                    {| AnomalyDetector.ta_line_number := 1;
                       AnomalyDetector.ta_log_level := Some ERROR;
                       AnomalyDetector.ta_message :=
                         message (AnomalyDetector.a_entry a);
                       AnomalyDetector.ta_timestamp := None;
                       AnomalyDetector.ta_anomaly_score :=
                         AnomalyDetector.anomaly_score a |})
                 mixed_found);
     AnomalyDetector.recommendation := Some AnomalyDetector.HighRate |}.

(** ** Patterns *)

(** The record types in the order the extractors run. *)
Definition pattern_order : list PatternDetection.PatternType :=
  [PatternDetection.url; PatternDetection.ip; PatternDetection.http_status;
   PatternDetection.sql; PatternDetection.api_endpoint;
   PatternDetection.exception].

(** How many examples a record shows. *)
Definition examples_size (x : PatternDetection.Examples) : nat :=
  match x with
  | PatternDetection.ExStrings xs => length xs
  | PatternDetection.ExCodes xs => length xs
  | PatternDetection.ExCounted xs => length xs
  end.

(** The entries [detect_patterns] looks at. *)
Definition errors_and_warnings (log_entries : list Entry) : list Entry :=
  filter (fun e => log_level e = Some ERROR \/ log_level e = Some WARNING)
         log_entries.
(** * Properties *)

(** ** The concrete scenarios of the specification, run on the model *)

Example scenario_parse_line :
  parse_line (txt "2024-01-15 10:30:45 ERROR Database connection failed") 1
  = Some {| line_number := 1;
            log_level := Some ERROR;
            timestamp := Some (DateTime 2024 1 15 10 30 45);
            message := txt "Database connection failed";
            raw_line :=
              txt "2024-01-15 10:30:45 ERROR Database connection failed" |}.
Proof. vm_compute. reflexivity. Qed.

Example scenario_grouping :
  let batch :=
    repeat (MkEntry 1 (Some ERROR) None (txt "Connection timeout") [])  10
    ++ repeat (MkEntry 1 (Some ERROR) None (txt "Disk full") []) 2 in
  map (fun g => (PatternDetection.representative g, PatternDetection.count g))
      (PatternDetection.group_similar_errors batch (7 # 10))
  = [(txt "Connection timeout", 10); (txt "Disk full", 2)].
Proof. vm_compute. reflexivity. Qed.

Example scenario_patterns :
  map (fun p => (PatternDetection.p_type p, PatternDetection.p_count p,
                 PatternDetection.p_examples p))
      (PatternDetection.patterns
         (PatternDetection.detect_patterns remove_dups
            (parse_file (txt "ERROR GET /api/users 200
ERROR POST /api/users 500")) (7 # 10)))
  = [(PatternDetection.http_status, 2,
      PatternDetection.ExCodes [(200, 1); (500, 1)]);
     (PatternDetection.api_endpoint, 2,
      PatternDetection.ExCounted [(txt "/api/users", 2)])].
Proof. vm_compute. reflexivity. Qed.


(** ** Parsing *)

Section ParseFacts.

Lemma parse_line_None (line : str) (n : nat) :
  parse_line line n = None <-> strip line = [].
Proof.
  unfold parse_line. destruct (strip line); split; intro H; congruence.
Qed.

Lemma parse_line_fields (line : str) (n : nat) (e : Entry) :
  parse_line line n = Some e ->
  strip line <> [] /\ line_number e = n /\ raw_line e = strip line
  /\ message e <> [].
Proof.
  unfold parse_line.
  destruct (strip line) as [|c l] eqn:Hs; [discriminate|].
  intros [= <-]. cbn [line_number raw_line message].
  repeat split; try discriminate.
  match goal with |- context [join ?x ?y] => destruct (join x y) end;
    discriminate.
Qed.

(** What the enumeration loop emits: every entry comes from one line of
    the input, and carries the number of that line. *)
Lemma parse_lines_elem (lines : list str) (idx : nat) (e : Entry) :
  e ∈ parse_lines idx lines ->
  exists i line, lines !! i = Some line /\ line_number e = idx + i
                 /\ parse_line line (idx + i) = Some e.
Proof.
  revert idx. induction lines as [|l lines IH]; intros idx; cbn [parse_lines].
  - intros H. by apply elem_of_nil in H.
  - destruct (parse_line l idx) as [p|] eqn:Hp.
    + intros [->|H]%elem_of_cons.
      * exists 0, l. rewrite Nat.add_0_r.
        destruct (parse_line_fields _ _ _ Hp) as (_ & Hn & _). auto.
      * destruct (IH _ H) as (i & line & H1 & H2 & H3).
        exists (S i), line. rewrite <- Nat.add_succ_comm. auto.
    + intros H. destruct (IH _ H) as (i & line & H1 & H2 & H3).
      exists (S i), line. rewrite <- Nat.add_succ_comm. auto.
Qed.

Lemma parse_lines_complete (lines : list str) (idx i : nat) (line : str) :
  lines !! i = Some line -> strip line <> [] ->
  exists e, e ∈ parse_lines idx lines /\ parse_line line (idx + i) = Some e.
Proof.
  revert idx i. induction lines as [|l lines IH]; intros idx i Hl Hs.
  - discriminate.
  - destruct i as [|i]; cbn in Hl.
    + injection Hl as ->. rewrite Nat.add_0_r. cbn [parse_lines].
      destruct (parse_line line idx) as [p|] eqn:Hp.
      * exists p. split; [left | reflexivity].
      * apply parse_line_None in Hp. contradiction.
    + destruct (IH (S idx) i Hl Hs) as (e & He & Hp).
      exists e. rewrite <- Nat.add_succ_comm. split; [|exact Hp].
      cbn [parse_lines]. destruct (parse_line l idx); [right|]; exact He.
Qed.

Lemma parse_lines_sorted (lines : list str) (idx : nat) :
  StronglySorted lt (map line_number (parse_lines idx lines)).
Proof.
  revert idx. induction lines as [|l lines IH]; intros idx; cbn [parse_lines].
  - constructor.
  - destruct (parse_line l idx) as [p|] eqn:Hp; [|apply IH].
    cbn [map]. constructor; [apply IH|].
    apply Forall_forall. intros n Hn.
    apply list_elem_of_fmap in Hn as (e & -> & He).
    destruct (parse_lines_elem _ _ _ He) as (i & _ & _ & Hi & _).
    destruct (parse_line_fields _ _ _ Hp) as (_ & Hp' & _). lia.
Qed.

End ParseFacts.

(** C5, as stated, fails: the line ["  ERROR boom  "] is parsed into an entry
    whose [raw_line] is ["ERROR boom"], without the blanks around it. *)
Lemma raw_line_loses_outer_whitespace :
  parse_file boom_line = [boom_entry]
  /\ split_lines boom_line !! (line_number boom_entry - 1) = Some boom_line
  /\ raw_line boom_entry <> boom_line.
Proof. repeat split; vm_compute; congruence. Qed.

(** C5, amended: for every entry emitted by [parse_file], [raw_line] is the
    source line at position [line_number] (1-based) with leading and
    trailing white space stripped. *)
Theorem raw_line_is_stripped_line (content : str) (e : Entry) :
  e ∈ parse_file content ->
  exists line, split_lines content !! (line_number e - 1) = Some line
               /\ raw_line e = strip line.
Proof.
  intros He. apply parse_lines_elem in He as (i & line & Hl & Hn & Hp).
  exists line. rewrite Hn. cbn. rewrite Nat.sub_0_r. split; [exact Hl|].
  by destruct (parse_line_fields _ _ _ Hp) as (_ & _ & Hr & _).
Qed.

Lemma raw_line_is_stripped_line_witness :
  boom_entry ∈ parse_file boom_line
  /\ exists line,
       split_lines boom_line !! (line_number boom_entry - 1) = Some line
       /\ raw_line boom_entry = strip line.
Proof.
  assert (H : boom_entry ∈ parse_file boom_line) by (vm_compute; left).
  split; [exact H | exact (raw_line_is_stripped_line boom_line boom_entry H)].
Defined.

(** C6: [parse_file] of the empty text and of three line feeds is empty;
    every emitted entry carries the 1-based position of the non-blank line
    it was parsed from; a blank line gives no entry and a non-blank line
    gives one; line numbers increase strictly; and a line feed followed by
    ["ERROR boom"] gives a single entry, numbered 2. *)
Theorem parse_file_line_numbers :
  parse_file [] = []
  /\ parse_file [newline; newline; newline] = []
  /\ (forall content e, e ∈ parse_file content ->
        exists line, split_lines content !! (line_number e - 1) = Some line
                     /\ 1 <= line_number e /\ strip line <> []
                     /\ parse_line line (line_number e) = Some e)
  /\ (forall content i line, split_lines content !! i = Some line ->
        strip line = [] ->
        forall e, e ∈ parse_file content -> line_number e <> S i)
  /\ (forall content i line, split_lines content !! i = Some line ->
        strip line <> [] ->
        exists e, e ∈ parse_file content /\ line_number e = S i)
  /\ (forall content, StronglySorted lt (map line_number (parse_file content)))
  /\ (exists e, parse_file (newline :: txt "ERROR boom") = [e]
                /\ line_number e = 2).
Proof.
  split; [reflexivity|]. split; [reflexivity|].
  split; [|split; [|split; [|split]]].
  - intros content e He.
    apply parse_lines_elem in He as (i & line & Hl & Hn & Hp).
    exists line. rewrite Hn. cbn. rewrite Nat.sub_0_r.
    destruct (parse_line_fields _ _ _ Hp) as (Hs & _).
    repeat split; auto with lia.
  - intros content i line Hl Hs e He Hn.
    apply parse_lines_elem in He as (i' & line' & Hl' & Hn' & Hp).
    assert (i' = i) as -> by lia.
    rewrite Hl in Hl'. injection Hl' as <-.
    destruct (parse_line_fields _ _ _ Hp) as (Hs' & _). contradiction.
  - intros content i line Hl Hs.
    destruct (parse_lines_complete _ 1 _ _ Hl Hs) as (e & He & Hp).
    exists e. split; [exact He|].
    by destruct (parse_line_fields _ _ _ Hp) as (_ & -> & _).
  - intros content. apply parse_lines_sorted.
  - eexists. split; [vm_compute; reflexivity | reflexivity].
Qed.

(** C10: every entry emitted by [parse_file] has a non-empty message. *)
Theorem parsed_message_nonempty (content : str) (e : Entry) :
  e ∈ parse_file content -> message e <> [].
Proof.
  intros He. apply parse_lines_elem in He as (i & line & _ & _ & Hp).
  by destruct (parse_line_fields _ _ _ Hp) as (_ & _ & _ & Hm).
Qed.

Lemma parsed_message_nonempty_witness :
  boom_entry ∈ parse_file (txt "ERROR boom") /\ message boom_entry <> [].
Proof.
  assert (H : boom_entry ∈ parse_file (txt "ERROR boom")) by (vm_compute; left).
  split; [exact H | exact (parsed_message_nonempty _ _ H)].
Defined.

(** ** Statistics *)

Section CounterFacts.
Context {K : Type} `{EqDecision K}.

Lemma counter_get_add (k k' : K) (c : list (K * nat)) :
  counter_get k (counter_add k' c)
  = counter_get k c + (if decide (k' = k) then 1 else 0).
Proof.
  induction c as [|[k0 n] c IH]; cbn [counter_add counter_get].
  - reflexivity.
  - destruct (decide (k0 = k')) as [->|Hne]; cbn [counter_get].
    + destruct (decide (k' = k)); lia.
    + destruct (decide (k0 = k)) as [->|]; [|exact IH].
      destruct (decide (k' = k)); [congruence | lia].
Qed.

Lemma counter_get_fold (k : K) (xs : list K) (c : list (K * nat)) :
  counter_get k (fold_left (fun c k => counter_add k c) xs c)
  = counter_get k c + occurrences k xs.
Proof.
  unfold occurrences. revert c.
  induction xs as [|x xs IH]; intros c; cbn [fold_left].
  - cbn. lia.
  - rewrite IH, counter_get_add, filter_cons.
    destruct (decide (x = k)); cbn [length]; lia.
Qed.

Lemma counter_get_Counter (k : K) (xs : list K) :
  counter_get k (Counter xs) = occurrences k xs.
Proof. unfold Counter. by rewrite counter_get_fold. Qed.
End CounterFacts.

Lemma level_occurrences_total (ls : list (option Level)) :
  occurrences (Some ERROR) ls + occurrences (Some WARNING) ls
  + occurrences (Some INFO) ls + occurrences (Some DEBUG) ls
  + occurrences None ls = length ls.
Proof.
  unfold occurrences. induction ls as [|l ls IH]; [reflexivity|].
  rewrite !filter_cons.
  destruct l as [[]|]; repeat case_decide; try congruence; cbn [length]; lia.
Qed.

Lemma occurrences_zero {K : Type} `{EqDecision K} (k : K) (xs : list K) :
  occurrences k xs = 0 <-> Forall (fun x => x <> k) xs.
Proof.
  unfold occurrences. induction xs as [|x xs IH].
  - split; [constructor | reflexivity].
  - rewrite filter_cons, Forall_cons. destruct (decide (x = k)) as [->|Hne].
    + cbn [length]. split; [lia | intros [Hk _]; congruence].
    + rewrite IH. tauto.
Qed.

Section Statistics.
Import LogAnalyzer.

(** C8: the four level counts of [analyze] add up to at most
    [total_entries], with equality exactly when no entry is without a level;
    and the analysis of the empty sequence has all counts zero and empty
    collections. *)
Theorem level_counts_bounded :
  (forall es : list Entry,
     error_count (analyze es) + warning_count (analyze es)
     + info_count (analyze es) + debug_count (analyze es)
     <= total_entries (analyze es))
  /\ (forall es : list Entry,
        error_count (analyze es) + warning_count (analyze es)
        + info_count (analyze es) + debug_count (analyze es)
        = total_entries (analyze es)
        <-> Forall (fun e => log_level e <> None) es)
  /\ analyze [] = {| total_entries := 0; error_count := 0; warning_count := 0;
                     info_count := 0; debug_count := 0; top_errors := [];
                     top_warnings := []; time_distribution := ∅ |}.
Proof.
  assert (Hsum : forall es : list Entry,
    error_count (analyze es) + warning_count (analyze es)
    + info_count (analyze es) + debug_count (analyze es)
    + occurrences None (map log_level es) = total_entries (analyze es)).
  { intros [|e es]; [reflexivity|].
    unfold analyze.
    cbn [error_count warning_count info_count debug_count total_entries].
    rewrite !counter_get_Counter.
    rewrite level_occurrences_total. apply length_map. }
  split; [|split; [|reflexivity]].
  - intros es. specialize (Hsum es). lia.
  - intros es. specialize (Hsum es).
    assert (Hz : occurrences None (map log_level es) = 0
                 <-> Forall (fun e => log_level e <> None) es).
    { rewrite occurrences_zero.
      exact (Forall_fmap log_level (fun x => x <> None) es). }
    rewrite <- Hz. lia.
Qed.
End Statistics.

(** ** Anomaly scoring on small batches *)

Section SmallBatches.
Import AnomalyDetector.

(** C7: on fewer than 10 entries [get_anomaly_summary] returns, for every
    contamination and whatever the outlier model would do, the empty
    summary with [has_anomalies = False] and [anomaly_count = 0]; it does
    not raise. *)
Theorem small_batch_no_anomalies
    (isolation_forest : Q -> list (list nat) -> option (list (Z * Q)))
    (contamination : Q) (es : list Entry) :
  length es < 10 ->
  get_anomaly_summary isolation_forest contamination es = Some no_anomalies
  /\ has_anomalies no_anomalies = false /\ anomaly_count no_anomalies = 0.
Proof.
  intros Hlen. unfold get_anomaly_summary, detect_anomalies.
  destruct (Nat.ltb_spec (length es) 10) as [_|Hge]; [|lia].
  repeat split.
Qed.

(** Nine entries, a contamination outside any sensible range, and a model
    that would raise on every call. *)
Lemma small_batch_no_anomalies_witness :
  get_anomaly_summary (fun _ _ => None) 7 (repeat boom_entry 9)
  = Some no_anomalies
  /\ has_anomalies no_anomalies = false /\ anomaly_count no_anomalies = 0.
Proof.
  apply (small_batch_no_anomalies (fun _ _ => None) 7 (repeat boom_entry 9)).
  cbn. lia.
Defined.
End SmallBatches.

(** ** Pattern extraction *)

Section PatternFacts.
Import PatternDetection.

(** C9, as stated, fails: an INFO entry whose message holds a request
    line is seen by the extractors when they are called directly, and is
    not when it goes through [detect_patterns]. *)
Lemma detect_patterns_drops_info :
  map log_level info_request = [Some INFO]
  /\ map p_type (extract_patterns remove_dups info_request)
     = [http_status; api_endpoint]
  /\ patterns (detect_patterns remove_dups info_request (7 # 10)) = [].
Proof. repeat split; vm_compute; reflexivity. Qed.

Lemma extract_patterns_nil (set_list : list str -> list str) :
  extract_patterns set_list [] = [].
Proof. reflexivity. Qed.

Lemma extract_patterns_messages (set_list : list str -> list str)
    (es es' : list Entry) :
  map message es = map message es' ->
  extract_patterns set_list es = extract_patterns set_list es'.
Proof. unfold extract_patterns. by intros ->. Qed.

(** C9, amended: [extract_patterns] reads the messages only and never the
    level, but the public [detect_patterns] hands it the ERROR and WARNING
    entries only, so entries of any other level are not considered. *)
Theorem detect_patterns_prefilters :
  (forall set_list es min_similarity,
     patterns (detect_patterns set_list es min_similarity)
     = extract_patterns set_list
         (filter (fun e => log_level e = Some ERROR
                           \/ log_level e = Some WARNING) es))
  /\ (forall set_list es (relabel : Entry -> option Level),
        extract_patterns set_list (map (fun e => with_level (relabel e) e) es)
        = extract_patterns set_list es).
Proof.
  split.
  - intros set_list es tau.
    assert (Hf : filter (fun e => is_error_or_warning e = true) es
                 = filter (fun e => log_level e = Some ERROR
                                    \/ log_level e = Some WARNING) es).
    { apply list_filter_iff. intros e. unfold is_error_or_warning.
      by rewrite bool_decide_eq_true. }
    rewrite <- Hf. unfold detect_patterns.
    destruct es as [|e es]; [reflexivity|].
    remember (filter (fun e => is_error_or_warning e = true) (e :: es)) as ew.
    destruct ew; reflexivity.
  - intros set_list es relabel. apply extract_patterns_messages.
    rewrite map_map. reflexivity.
Qed.
End PatternFacts.

(** ** Timestamps and messages *)

(** C2, as stated, fails: in this line the first shape matches
    ["2024-13-45 10:30:45"], which no format parses, and the scan still goes
    on to the third shape and returns its timestamp. *)
Lemma extract_timestamp_falls_through :
  (head TIMESTAMP_PATTERNS ≫= fun p => re_search p two_stamps)
  = Some (txt "2024-13-45 10:30:45")
  /\ parse_match (txt "2024-13-45 10:30:45") = None
  /\ extract_timestamp two_stamps = Some (DateTime 2024 1 15 10 30 45).
Proof. repeat split; vm_compute; reflexivity. Qed.

Lemma extract_timestamp_from_cons (p : regex) (pats : list regex) (line : str) :
  extract_timestamp_from (p :: pats) line
  = match shape_timestamp line p with
    | Some t => Some t
    | None => extract_timestamp_from pats line
    end.
Proof.
  cbn [extract_timestamp_from]. unfold shape_timestamp.
  destruct (re_search p line) as [m|]; [|reflexivity]. reflexivity.
Qed.

Lemma extract_timestamp_from_Some (pats : list regex) (line : str)
    (t : datetime) :
  extract_timestamp_from pats line = Some t
  <-> exists i p, pats !! i = Some p /\ shape_timestamp line p = Some t
                  /\ forall j q, j < i -> pats !! j = Some q ->
                                 shape_timestamp line q = None.
Proof.
  induction pats as [|p pats IH].
  - split; [discriminate | intros (i & q & H & _); discriminate].
  - rewrite extract_timestamp_from_cons.
    destruct (shape_timestamp line p) as [t'|] eqn:Hp.
    + split.
      * intros [= ->]. exists 0, p. repeat split; [exact Hp|]. intros; lia.
      * intros (i & q & Hi & Hq & Hlt). destruct i as [|i].
        -- cbn in Hi. injection Hi as <-. congruence.
        -- specialize (Hlt 0 p). rewrite Hp in Hlt.
           discriminate Hlt; [lia | reflexivity].
    + rewrite IH. split.
      * intros (i & q & Hi & Hq & Hlt). exists (S i), q.
        repeat split; [exact Hi | exact Hq |].
        intros [|j] q' Hj Hq'; [cbn in Hq'; congruence|].
        apply (Hlt j); [lia | exact Hq'].
      * intros (i & q & Hi & Hq & Hlt). destruct i as [|i].
        -- cbn in Hi. injection Hi as <-. congruence.
        -- exists i, q. repeat split; [exact Hi | exact Hq |].
           intros j q' Hj Hq'. apply (Hlt (S j)); [lia | exact Hq'].
Qed.

Lemma extract_timestamp_from_None (pats : list regex) (line : str) :
  extract_timestamp_from pats line = None
  <-> forall p, p ∈ pats -> shape_timestamp line p = None.
Proof.
  induction pats as [|p pats IH].
  - split; [|reflexivity]. intros _ p Hp. by apply elem_of_nil in Hp.
  - rewrite extract_timestamp_from_cons.
    destruct (shape_timestamp line p) as [t'|] eqn:Hp.
    + split; [discriminate|]. intros H. specialize (H p). rewrite Hp in H.
      discriminate H. left.
    + rewrite IH. split.
      * intros H q [->|Hq]%elem_of_cons; auto.
      * intros H q Hq. apply H. by right.
Qed.

(** C2, amended: the shapes are tried in order, and the timestamp is the
    parse of the leftmost match of the first shape whose match parses (with
    the three formats tried in order on it); a shape whose match does not
    parse is passed over like a shape with no match, and no timestamp is
    reported only when every shape ends that way. *)
Theorem extract_timestamp_first_parseable (line : str) :
  (forall t, extract_timestamp line = Some t
     <-> exists i p, TIMESTAMP_PATTERNS !! i = Some p
                     /\ (re_search p line ≫= parse_match) = Some t
                     /\ forall j q, j < i -> TIMESTAMP_PATTERNS !! j = Some q ->
                                    (re_search q line ≫= parse_match) = None)
  /\ (extract_timestamp line = None
      <-> forall p, p ∈ TIMESTAMP_PATTERNS ->
                    (re_search p line ≫= parse_match) = None).
Proof.
  split.
  - intros t. apply extract_timestamp_from_Some.
  - apply extract_timestamp_from_None.
Qed.

(** C4, as stated, fails: with two timestamps in the line the parser takes
    both out, where removing the first occurrence of each shape would leave
    the second one in the message. *)
Lemma message_removes_every_occurrence :
  (message <$> parse_line doubled_stamp 1) = Some (txt "x")
  /\ derive_message remove_first_of_each (strip doubled_stamp)
     = txt "2024-01-16 10:30:45 x".
Proof. split; vm_compute; reflexivity. Qed.

(** C4, amended: the message of a parsed line is derived from the stripped
    line by removing every occurrence of each timestamp shape when a
    timestamp was found, then every occurrence of each pattern of the
    detected level when a level was found (trimming after each pattern),
    then collapsing white space; an empty result falls back to the stripped
    line. *)
Theorem message_derivation (line : str) (n : nat) (e : Entry) :
  parse_line line n = Some e ->
  message e = derive_message remove_patterns (strip line).
Proof.
  unfold parse_line, derive_message.
  destruct (strip line) as [|c l] eqn:Hs; [discriminate|].
  intros [= <-]. reflexivity.
Qed.

Lemma message_derivation_witness :
  parse_line doubled_stamp 1
  = Some {| line_number := 1; log_level := None;
            timestamp := Some (DateTime 2024 1 15 10 30 45);
            message := txt "x"; raw_line := doubled_stamp |}
  /\ txt "x" = derive_message remove_patterns (strip doubled_stamp).
Proof.
  assert (H : parse_line doubled_stamp 1
              = Some {| line_number := 1; log_level := None;
                        timestamp := Some (DateTime 2024 1 15 10 30 45);
                        message := txt "x"; raw_line := doubled_stamp |})
    by (vm_compute; reflexivity).
  split; [exact H | exact (message_derivation _ _ _ H)].
Defined.

(** ** Similarity grouping *)

Section Grouping.
Import PatternDetection.

Lemma absorbed_ext (message1 : str) (tau : Q) (P P' : gset nat)
    (rest : list Entry) :
  forall j, (forall k, j <= k -> k ∈ P <-> k ∈ P') ->
  absorbed message1 tau P j rest = absorbed message1 tau P' j rest.
Proof.
  induction rest as [|e rest IH]; intros j HP; [reflexivity|].
  cbn [absorbed].
  assert (Hq : qualifies message1 tau P j e = qualifies message1 tau P' j e).
  { unfold qualifies. do 2 f_equal. apply bool_decide_ext.
    specialize (HP j (le_n j)). tauto. }
  rewrite Hq, (IH (S j)); [reflexivity|].
  intros k Hk. apply HP. lia.
Qed.

Lemma absorbed_elem (message1 : str) (tau : Q) (P : gset nat)
    (rest : list Entry) :
  forall j k e, (k, e) ∈ absorbed message1 tau P j rest ->
  j <= k /\ rest !! (k - j) = Some e /\ qualifies message1 tau P k e = true.
Proof.
  induction rest as [|e0 rest IH]; intros j k e; cbn [absorbed].
  - intros H. by apply elem_of_nil in H.
  - assert (Hrec : (k, e) ∈ absorbed message1 tau P (S j) rest ->
                   j <= k /\ (e0 :: rest) !! (k - j) = Some e
                   /\ qualifies message1 tau P k e = true).
    { intros H. destruct (IH _ _ _ H) as (Hle & Hl & Hq).
      repeat split; [lia | | exact Hq].
      replace (k - j) with (S (k - S j)) by lia. exact Hl. }
    destruct (qualifies message1 tau P j e0) eqn:Hq; [|exact Hrec].
    intros [[= -> ->]|H]%elem_of_cons; [|by apply Hrec].
    rewrite Nat.sub_diag. auto.
Qed.

Lemma add_members_cons (g : Group) (j : nat) (e : Entry)
    (ms : list (nat * Entry)) :
  add_members (add_member g j e) ms = add_members g ((j, e) :: ms).
Proof.
  unfold add_members, add_member. cbn. f_equal; [lia|].
  by rewrite <- app_assoc.
Qed.

Lemma add_members_nil (g : Group) : add_members g [] = g.
Proof.
  destruct g. unfold add_members. cbn. f_equal; [lia | apply app_nil_r].
Qed.

(** One scan of the inner loop adds exactly the absorbed candidates. *)
Lemma scan_candidates_absorbed (message1 : str) (tau : Q) (rest : list Entry) :
  forall j g P,
  scan_candidates message1 tau j rest (g, P)
  = (add_members g (absorbed message1 tau P j rest),
     list_to_set (absorbed message1 tau P j rest).*1 ∪ P).
Proof.
  induction rest as [|e rest IH]; intros j g P; cbn [scan_candidates absorbed].
  - rewrite add_members_nil. f_equal. cbn. by rewrite (left_id_L ∅ (∪)).
  - unfold qualifies. destruct (decide (j ∈ P)) as [Hin|Hnin].
    + rewrite bool_decide_eq_false_2 by tauto. cbn [andb]. apply IH.
    + rewrite (bool_decide_eq_true_2 (j ∉ P)) by exact Hnin. cbn [andb].
      destruct (lower (message e)) as [|c m] eqn:Hm.
      * rewrite bool_decide_eq_false_2 by tauto. cbn [andb]. apply IH.
      * rewrite bool_decide_eq_true_2 by discriminate. cbn [andb].
        destruct (Qle_bool tau (calculate_similarity message1 (c :: m)));
          [|apply IH].
        rewrite IH, add_members_cons.
        rewrite (absorbed_ext message1 tau ({[j]} ∪ P) P).
        -- f_equal. cbn [fmap list_fmap fst list_to_set].
           by rewrite (assoc_L (∪)), (comm_L (∪) _ {[j]}).
        -- intros k Hk. rewrite elem_of_union, elem_of_singleton.
           split; [intros [->|]; [lia | assumption] | auto].
Qed.

(** One turn of the outer loop. *)
Lemma group_loop_cons (tau : Q) (i : nat) (entry1 : Entry) (rest : list Entry)
    (gs : list Group) (P : gset nat) :
  group_loop tau i (entry1 :: rest) (gs, P)
  = if decide (i ∈ P) then group_loop tau (S i) rest (gs, P)
    else if decide (lower (message entry1) = [])
    then group_loop tau (S i) rest (gs, P)
    else
      let ms := absorbed (lower (message entry1)) tau P (S i) rest in
      match ms with
      | [] => group_loop tau (S i) rest (gs, P)
      | _ => group_loop tau (S i) rest
               (gs ++ [add_members (new_group (length gs + 1) i entry1) ms],
                {[i]} ∪ (list_to_set ms.*1 ∪ P))
      end.
Proof.
  cbn [group_loop]. destruct (decide (i ∈ P)); [reflexivity|].
  destruct (lower (message entry1)) as [|c m] eqn:Hm.
  - rewrite decide_True by reflexivity. reflexivity.
  - rewrite decide_False by discriminate.
    rewrite scan_candidates_absorbed. cbv zeta.
    destruct (absorbed (c :: m) tau P (S i) rest) as [|x ms] eqn:Ha.
    + cbn. do 2 f_equal. by rewrite (left_id_L ∅ (∪)).
    + cbn [add_members new_group count length].
      destruct (Nat.ltb_spec 1 (1 + S (length ms))); [reflexivity | lia].
Qed.

Lemma seeded_in_cons (i : nat) (e1 : Entry) (rest : list Entry) (g : Group) :
  seeded_in (S i) rest g -> seeded_in i (e1 :: rest) g.
Proof.
  intros (s & e & ms & He & Hs & Hl & Hms). exists s, e, ms.
  repeat split; [exact He | lia | |].
  - replace (s - i) with (S (s - S i)) by lia. exact Hl.
  - eapply Forall_impl; [exact Hms|]. intros [k ek] [Hk Hlk]. cbn in *.
    split; [exact Hk|]. replace (k - i) with (S (k - S i)) by lia. exact Hlk.
Qed.

Lemma group_loop_seeded (tau : Q) (rest : list Entry) :
  forall i gs P g, g ∈ (group_loop tau i rest (gs, P)).1 ->
  g ∈ gs \/ seeded_in i rest g.
Proof.
  induction rest as [|e1 rest IH]; intros i gs P g.
  - cbn. auto.
  - rewrite group_loop_cons.
    assert (Hskip : g ∈ (group_loop tau (S i) rest (gs, P)).1 ->
                    g ∈ gs \/ seeded_in i (e1 :: rest) g).
    { intros H. destruct (IH _ _ _ _ H); [by left | right].
      by apply seeded_in_cons. }
    destruct (decide (i ∈ P)); [exact Hskip|].
    destruct (decide (lower (message e1) = [])); [exact Hskip|].
    cbv zeta.
    destruct (absorbed (lower (message e1)) tau P (S i) rest) as [|x ms] eqn:Ha;
      [exact Hskip|].
    intros H. destruct (IH _ _ _ _ H) as [Hg|Hg];
      [|right; by apply seeded_in_cons].
    apply elem_of_app in Hg as [Hg|Hg]; [by left|]. right.
    apply list_elem_of_singleton in Hg as ->.
    exists i, e1, (x :: ms). cbn [add_members new_group entries app].
    rewrite Nat.sub_diag. repeat split; [lia|].
    apply Forall_forall. intros [k ek] Hk. rewrite <- Ha in Hk.
    apply absorbed_elem in Hk as (Hle & Hl & _). cbn.
    split; [lia|]. replace (k - i) with (S (k - S i)) by lia. exact Hl.
Qed.

Lemma elem_of_insert_group (x y : Group) (l : list Group) :
  x ∈ insert_group y l -> x = y \/ x ∈ l.
Proof.
  induction l as [|z l IH]; cbn [insert_group].
  - intros H%list_elem_of_singleton. by left.
  - destruct (count y <? count z).
    + intros [->|H]%elem_of_cons; [right; left|].
      destruct (IH H); [by left | right; by right].
    + intros [->|H]%elem_of_cons; [by left | by right].
Qed.

Lemma elem_of_sort_groups (x : Group) (l : list Group) :
  x ∈ sort_groups l -> x ∈ l.
Proof.
  induction l as [|y l IH]; cbn; [auto|].
  intros [->|H]%elem_of_insert_group; [left | right; auto].
Qed.

(** In every returned group the first entry is the seed, and every other
    member sits at a later position of the batch. *)
Lemma group_members_after_seed (batch : list Entry) (tau : Q) (g : Group) :
  g ∈ group_similar_errors batch tau ->
  exists s e ms, entries g = (s, e) :: ms /\ batch !! s = Some e
    /\ Forall (fun m => s < m.1 /\ batch !! m.1 = Some m.2) ms.
Proof.
  unfold group_similar_errors. destruct batch as [|e0 batch].
  { intros H. by apply elem_of_nil in H. }
  destruct (group_loop tau 0 (e0 :: batch) ([], ∅)) as [gs P] eqn:Hloop.
  intros H. apply subseteq_take, elem_of_sort_groups in H.
  assert (H' : g ∈ (group_loop tau 0 (e0 :: batch) ([], ∅)).1)
    by (rewrite Hloop; exact H).
  apply group_loop_seeded in H' as [H'|(s & e & ms & He & _ & Hl & Hms)].
  { by apply elem_of_nil in H'. }
  exists s, e, ms. rewrite Nat.sub_0_r in Hl.
  repeat split; [exact He | exact Hl |].
  eapply Forall_impl; [exact Hms|]. intros [k ek]. cbn.
  by rewrite Nat.sub_0_r.
Qed.

(** C3, as stated, fails: its negation holds.  No batch and threshold give
    a group holding a member from before the group's seed, so an entry whose
    own turn as seed came earlier is never taken up by a later seed. *)
Lemma no_member_before_seed :
  ~ exists (batch : list Entry) (tau : Q) (g : Group)
           (s : nat) (e0 : Entry) (i : nat) (e : Entry),
      g ∈ group_similar_errors batch tau
      /\ head (entries g) = Some (s, e0)
      /\ (i, e) ∈ entries g
      /\ i < s.
Proof.
  intros (batch & tau & g & s & e0 & i & e & Hg & Hhead & Hin & Hlt).
  apply group_members_after_seed in Hg as (s' & e' & ms & He & _ & Hms).
  rewrite He in Hhead, Hin. cbn in Hhead. injection Hhead as -> ->.
  apply elem_of_cons in Hin as [[= -> ->]|Hin]; [lia|].
  rewrite Forall_forall in Hms. apply Hms in Hin. cbn in Hin. lia.
Qed.

(** C3, amended: a seed whose scan leaves its group with fewer than 2
    members is dropped and the loop goes on with the groups and the
    processed set as they were (the seed is not marked processed); but a
    seed scans only the entries after it, so in every returned group the
    members lie strictly after the seed, and a dropped seed is never
    absorbed by a later one. *)
Theorem discarded_seed_never_absorbed :
  (forall tau i entry1 rest gs P,
     i ∉ P -> lower (message entry1) <> [] ->
     count (scan_candidates (lower (message entry1)) tau (S i) rest
              (new_group (length gs + 1) i entry1, P)).1 < 2 ->
     group_loop tau i (entry1 :: rest) (gs, P)
     = group_loop tau (S i) rest (gs, P))
  /\ (forall batch tau g,
        g ∈ group_similar_errors batch tau ->
        exists s e ms, entries g = (s, e) :: ms /\ batch !! s = Some e
          /\ Forall (fun m => s < m.1 /\ batch !! m.1 = Some m.2) ms).
Proof.
  split; [|apply group_members_after_seed].
  intros tau i entry1 rest gs P Hi Hm. rewrite scan_candidates_absorbed.
  cbn [fst add_members new_group count]. intros Hc.
  rewrite group_loop_cons, decide_False, decide_False by assumption.
  cbv zeta. destruct (absorbed _ _ _ _ _); [reflexivity | cbn in Hc; lia].
Qed.

Lemma discarded_seed_never_absorbed_witness :
  chain_batch = chain_seed :: chain_rest
  /\ (0 ∉ (∅ : gset nat))
  /\ lower (message chain_seed) <> []
  /\ count (scan_candidates (lower (message chain_seed)) (55 # 100) 1
               chain_rest
               (new_group (length ([] : list Group) + 1) 0 chain_seed, ∅)).1
     < 2
  /\ group_loop (55 # 100) 0 (chain_seed :: chain_rest) ([], ∅)
     = group_loop (55 # 100) 1 chain_rest ([], ∅).
Proof.
  assert (H1 : 0 ∉ (∅ : gset nat)) by apply not_elem_of_empty.
  assert (H2 : lower (message chain_seed) <> []) by (vm_compute; congruence).
  assert (H3 : count (scan_candidates (lower (message chain_seed)) (55 # 100) 1
                        chain_rest
                        (new_group (length ([] : list Group) + 1) 0 chain_seed,
                         ∅)).1 < 2) by (vm_compute; lia).
  pose proof (proj1 discarded_seed_never_absorbed (55 # 100) 0 chain_seed
                chain_rest [] ∅ H1 H2) as Hstep.
  split; [vm_compute; reflexivity|].
  split; [exact H1|]. split; [exact H2|]. split; [exact H3|].
  exact (Hstep H3).
Defined.

Lemma absorbed_antitone (message1 : str) (t1 t2 : Q) (P : gset nat)
    (rest : list Entry) :
  (t1 <= t2)%Q ->
  forall j,
    absorbed message1 t2 P j rest `sublist_of` absorbed message1 t1 P j rest.
Proof.
  intros Hle. induction rest as [|e rest IH]; intros j; cbn [absorbed].
  - constructor.
  - destruct (qualifies message1 t2 P j e) eqn:H2.
    + assert (H1 : qualifies message1 t1 P j e = true).
      { unfold qualifies in *.
        apply andb_prop in H2 as [H2 Hq]. rewrite H2. cbn [andb].
        apply Qle_bool_iff. apply Qle_bool_iff in Hq.
        eapply Qle_trans; eassumption. }
      rewrite H1. apply sublist_skip, IH.
    + destruct (qualifies message1 t1 P j e); [apply sublist_cons|]; apply IH.
Qed.

(** C1, as stated, fails: on these four ERROR entries the groups at
    threshold 0.4 hold 2 entries and the groups at 0.55 hold 3.  At 0.4 the
    first entry takes the second; at 0.55 it takes none, and the second,
    left free, takes the third and the fourth. *)
Lemma stricter_threshold_groups_more :
  Forall (fun e => log_level e = Some ERROR) chain_batch
  /\ (0 <= 4 # 10)%Q /\ (4 # 10 <= 55 # 100)%Q /\ (55 # 100 <= 1)%Q
  /\ grouped_total (group_similar_errors chain_batch (4 # 10)) = 2
  /\ grouped_total (group_similar_errors chain_batch (55 # 100)) = 3
  /\ ~ (grouped_total (group_similar_errors chain_batch (55 # 100))
        <= grouped_total (group_similar_errors chain_batch (4 # 10))).
Proof.
  split; [vm_compute; repeat constructor|].
  repeat split; try (vm_compute; congruence); try (vm_compute; reflexivity).
  vm_compute. lia.
Qed.

(** C1, amended: for one seed and one processed set, a higher threshold
    never adds a candidate: the members gathered by the scan at [t2] are
    among those gathered at [t1], in the same order, and the member count is
    no larger.  (The total over all groups can grow, as a seed that fails at
    the higher threshold leaves its candidates to later seeds.) *)
Theorem scan_monotone_in_threshold (message1 : str) (t1 t2 : Q) (j : nat)
    (rest : list Entry) (g : Group) (P : gset nat) :
  (t1 <= t2)%Q ->
  entries (scan_candidates message1 t2 j rest (g, P)).1
    `sublist_of` entries (scan_candidates message1 t1 j rest (g, P)).1
  /\ count (scan_candidates message1 t2 j rest (g, P)).1
     <= count (scan_candidates message1 t1 j rest (g, P)).1.
Proof.
  intros Hle. rewrite !scan_candidates_absorbed.
  cbn [fst add_members entries count].
  pose proof (absorbed_antitone message1 t1 t2 P rest Hle j) as Hs.
  split.
  - by apply sublist_app.
  - apply sublist_length in Hs. lia.
Qed.

Lemma scan_monotone_in_threshold_witness :
  (4 # 10 <= 55 # 100)%Q
  /\ count (scan_candidates (lower (message chain_seed)) (55 # 100) 1
              chain_rest (new_group 1 0 chain_seed, ∅)).1
     <= count (scan_candidates (lower (message chain_seed)) (4 # 10) 1
                 chain_rest (new_group 1 0 chain_seed, ∅)).1.
Proof.
  assert (H : (4 # 10 <= 55 # 100)%Q) by (vm_compute; congruence).
  split; [exact H|].
  exact (proj2 (scan_monotone_in_threshold (lower (message chain_seed))
                  (4 # 10) (55 # 100) 1 chain_rest
                  (new_group 1 0 chain_seed) ∅ H)).
Defined.

End Grouping.

(** ** The matching-block loop terminates within its fuel *)

Section DifflibFacts.
Import Difflib.
Variables a b : str.

Lemma within_mono (lo hi hi' : nat) (best : nat * nat * nat) :
  hi <= hi' -> within lo hi best -> within lo hi' best.
Proof. unfold within. lia. Qed.

Lemma row_within (i alo blo bhi : nat) (j2len : gmap nat nat) (js : list nat) :
  alo <= i -> bounded j2len (i - alo) ->
  forall st, bounded st.1 (S i - alo) -> within alo (S i) st.2 ->
  bounded (row i blo bhi j2len js st).1 (S i - alo)
  /\ within alo (S i) (row i blo bhi j2len js st).2.
Proof.
  intros Hi Hlen. induction js as [|j js IH]; intros st Hb Hw; cbn [row].
  - auto.
  - destruct (j <? blo); [by apply IH|].
    destruct (bhi <=? j); [auto|].
    destruct st as [newj2len [[besti bestj] bestsize]].
    set (k := match j with 0 => 1 | S j1 => default 0 (j2len !! j1) + 1 end).
    assert (Hk : 1 <= k <= S i - alo).
    { subst k. destruct j as [|j1]; [lia|].
      destruct (j2len !! j1) as [x|] eqn:Hx; cbn; [|lia].
      apply Hlen in Hx. lia. }
    apply IH; cbn [fst snd].
    + intros j' x. rewrite lookup_insert. case_decide.
      * intros [= <-]. lia.
      * apply Hb.
    + destruct (bestsize <? k); [|exact Hw]. unfold within. cbn. lia.
Qed.

Lemma rows_within (alo blo bhi : nat) :
  forall n i j2len best,
  alo <= i -> bounded j2len (i - alo) -> within alo i best ->
  within alo (i + n) (rows a b n i blo bhi j2len best).
Proof.
  induction n as [|n IH]; intros i j2len best Hi Hlen Hw; cbn [rows].
  - by rewrite Nat.add_0_r.
  - destruct (a !! i) as [c|]; [|eapply within_mono; [|exact Hw]; lia].
    destruct (row i blo bhi j2len (b2j b c) (∅, best)) as [new best'] eqn:Hr.
    pose proof (row_within i alo blo bhi j2len (b2j b c) Hi Hlen (∅, best))
      as H.
    rewrite Hr in H. cbn [fst snd] in H.
    destruct H as [Hb' Hw'].
    { intros j x. by rewrite lookup_empty. }
    { eapply within_mono; [|exact Hw]. lia. }
    replace (i + S n) with (S i + n) by lia.
    apply IH; [lia | exact Hb' | exact Hw'].
Qed.

Lemma extend_left_within (alo ahi blo : nat) :
  forall besti bestj bestsize, within alo ahi (besti, bestj, bestsize) ->
  within alo ahi (extend_left a b alo blo besti bestj bestsize).
Proof.
  induction besti as [|i1 IH]; intros bestj bestsize Hw;
    cbn [extend_left]; [exact Hw|].
  destruct (Nat.ltb_spec alo (S i1)); cbn [andb]; [|exact Hw].
  destruct (_ && _); [|exact Hw].
  apply IH. unfold within in *. cbn in *. lia.
Qed.

Lemma extend_right_within (alo bhi besti bestj : nat) :
  forall gap bestsize, alo <= besti ->
  within alo (besti + bestsize + gap)
         (extend_right a b gap bhi besti bestj bestsize).
Proof.
  induction gap as [|gap IH]; intros bestsize Hw; cbn [extend_right].
  - unfold within. cbn. lia.
  - destruct (_ && _).
    + replace (besti + bestsize + S gap) with (besti + (bestsize + 1) + gap)
        by lia.
      by apply IH.
    + unfold within. cbn. lia.
Qed.

(** The block found in [a[alo:ahi]] lies in that slice. *)
Lemma find_longest_match_within (alo ahi blo bhi : nat) :
  alo <= ahi -> within alo ahi (find_longest_match a b alo ahi blo bhi).
Proof.
  intros Hle. unfold find_longest_match.
  assert (H1 : within alo ahi
                 (rows a b (ahi - alo) alo blo bhi ∅ (alo, blo, 0))).
  { replace ahi with (alo + (ahi - alo)) at 1 by lia.
    apply rows_within; [lia | | unfold within; cbn; lia].
    intros j x. by rewrite lookup_empty. }
  destruct (rows a b (ahi - alo) alo blo bhi ∅ (alo, blo, 0))
    as [[besti bestj] bestsize].
  apply (extend_left_within alo ahi blo) in H1.
  destruct (extend_left a b alo blo besti bestj bestsize)
    as [[besti' bestj'] bestsize'].
  unfold within in H1. cbn in H1.
  replace ahi with (besti' + bestsize' + (ahi - (besti' + bestsize'))) at 1
    by lia.
  apply extend_right_within. lia.
Qed.

Lemma blocks_loop_nil (fuel : nat) (acc : list (nat * nat * nat)) :
  blocks_loop a b fuel [] acc = acc.
Proof. by destruct fuel. Qed.

(** Once the fuel covers the weight of the queue, more fuel changes
    nothing: the queue runs empty first. *)
Lemma total_weight_cons (item : nat * nat * nat * nat)
    (queue : list (nat * nat * nat * nat)) :
  total_weight (item :: queue) = weight item + total_weight queue.
Proof. reflexivity. Qed.

Lemma blocks_loop_fuel (extra : nat) :
  forall fuel queue acc,
  Forall ordered queue -> total_weight queue <= fuel ->
  blocks_loop a b (fuel + extra) queue acc = blocks_loop a b fuel queue acc.
Proof.
  induction fuel as [|fuel IH]; intros queue acc Hord Hw.
  - destruct queue as [|item queue]; [by rewrite !blocks_loop_nil|].
    rewrite total_weight_cons in Hw. unfold weight in Hw. lia.
  - destruct queue as [|[[[alo ahi] blo] bhi] queue]; [reflexivity|].
    cbn [Nat.add blocks_loop].
    apply Forall_cons in Hord as [Hitem Hord]. unfold ordered in Hitem.
    rewrite total_weight_cons in Hw. unfold weight in Hw. cbn in Hitem, Hw.
    pose proof (find_longest_match_within alo ahi blo bhi Hitem) as Hin.
    destruct (find_longest_match a b alo ahi blo bhi) as [[i j] k].
    unfold within in Hin. cbn in Hin.
    destruct k as [|k]; [apply IH; [exact Hord | lia]|].
    apply IH.
    + repeat (destruct (_ && _));
        repeat (apply Forall_cons_2; [unfold ordered; cbn; lia|]); exact Hord.
    + repeat (destruct (_ && _)); rewrite ?total_weight_cons; unfold weight;
        cbn [fst snd]; lia.
Qed.

(** [matching_blocks] is the result of the loop run to its end. *)
Lemma matching_blocks_complete (extra : nat) :
  blocks_loop a b (2 * length a + 2 + extra) [(0, length a, 0, length b)] []
  = matching_blocks a b.
Proof.
  unfold matching_blocks. apply blocks_loop_fuel.
  - repeat constructor. unfold ordered. cbn. lia.
  - cbn. unfold weight. cbn. lia.
Qed.

End DifflibFacts.

(** * Further properties *)

(** ** Groups of similar messages *)

Section GroupFacts.
Import PatternDetection.

Lemma formed_in_cons (tau : Q) (i : nat) (e1 : Entry) (rest : list Entry)
    (g : Group) :
  formed_in tau (S i) rest g -> formed_in tau i (e1 :: rest) g.
Proof.
  intros (id & s & e & P & Hs & Hl & Hm & Hne & ->).
  exists id, s, e, P.
  replace (s - i) with (S (s - S i)) by lia.
  change (drop (S (S (s - S i))) (e1 :: rest)) with (drop (S (s - S i)) rest).
  repeat split; [lia | exact Hl | exact Hm | exact Hne].
Qed.

Lemma group_loop_formed (tau : Q) (rest : list Entry) :
  forall i gs P g, g ∈ (group_loop tau i rest (gs, P)).1 ->
  g ∈ gs \/ formed_in tau i rest g.
Proof.
  induction rest as [|e1 rest IH]; intros i gs P g.
  - cbn. auto.
  - rewrite group_loop_cons.
    assert (Hskip : g ∈ (group_loop tau (S i) rest (gs, P)).1 ->
                    g ∈ gs \/ formed_in tau i (e1 :: rest) g).
    { intros H. destruct (IH _ _ _ _ H); [by left | right].
      by apply formed_in_cons. }
    destruct (decide (i ∈ P)); [exact Hskip|].
    destruct (decide (lower (message e1) = [])) as [|Hm]; [exact Hskip|].
    cbv zeta.
    destruct (absorbed (lower (message e1)) tau P (S i) rest) as [|x ms] eqn:Ha;
      [exact Hskip|].
    intros H. destruct (IH _ _ _ _ H) as [Hg|Hg];
      [|right; by apply formed_in_cons].
    apply elem_of_app in Hg as [Hg|Hg]; [by left|]. right.
    apply list_elem_of_singleton in Hg as ->.
    exists (length gs + 1), i, e1, P. rewrite Nat.sub_diag.
    change (drop 1 (e1 :: rest)) with rest.
    rewrite Ha. repeat split; [lia | exact Hm | discriminate].
Qed.

Lemma group_similar_errors_formed (batch : list Entry) (tau : Q) (g : Group) :
  g ∈ group_similar_errors batch tau -> formed_in tau 0 batch g.
Proof.
  unfold group_similar_errors. destruct batch as [|e0 batch].
  { intros H. by apply elem_of_nil in H. }
  destruct (group_loop tau 0 (e0 :: batch) ([], ∅)) as [gs P] eqn:Hloop.
  intros H. apply subseteq_take, elem_of_sort_groups in H.
  assert (H' : g ∈ (group_loop tau 0 (e0 :: batch) ([], ∅)).1)
    by (rewrite Hloop; exact H).
  apply group_loop_formed in H' as [H'|H']; [|exact H'].
  by apply elem_of_nil in H'.
Qed.

(** X1: every returned group has at least two members, and its [count] is
    the number of its entries. *)
Theorem group_count_is_size (batch : list Entry) (tau : Q) (g : Group) :
  g ∈ group_similar_errors batch tau ->
  count g = length (entries g) /\ 2 <= count g.
Proof.
  intros (id & s & e & P & _ & _ & _ & Hne & ->)%group_similar_errors_formed.
  cbn [add_members new_group count entries]. rewrite length_app. cbn [length].
  destruct (absorbed _ _ _ _ _); [contradiction|]. cbn [length]. lia.
Qed.

Lemma group_count_is_size_witness :
  (exists g, g ∈ group_similar_errors chain_batch (4 # 10)
             /\ count g = length (entries g) /\ 2 <= count g).
Proof.
  destruct (group_similar_errors chain_batch (4 # 10)) as [|g gs] eqn:Hg;
    [vm_compute in Hg; discriminate|].
  assert (H : g ∈ group_similar_errors chain_batch (4 # 10))
    by (rewrite Hg; left).
  exists g. split; [left | exact (group_count_is_size _ _ _ H)].
Defined.

(** X2: in every returned group the first entry is the seed, which gives
    the representative (its first 100 characters) and the level; every other
    member lies later in the batch, has a non-empty message, and its
    lower-cased message is similar to the seed's by at least the
    threshold. *)
Theorem group_members_similar (batch : list Entry) (tau : Q) (g : Group) :
  g ∈ group_similar_errors batch tau ->
  exists s e ms,
    entries g = (s, e) :: ms /\ batch !! s = Some e
    /\ message e <> []
    /\ representative g = take 100 (message e)
    /\ g_log_level g = log_level e
    /\ Forall (fun m =>
         s < m.1 /\ batch !! m.1 = Some m.2 /\ message m.2 <> []
         /\ (tau <= calculate_similarity (lower (message e))
                      (lower (message m.2)))%Q) ms.
Proof.
  intros (id & s & e & P & _ & Hl & Hm & _ & ->)%group_similar_errors_formed.
  rewrite Nat.sub_0_r in *.
  exists s, e, (absorbed (lower (message e)) tau P (S s) (drop (S s) batch)).
  repeat split; [exact Hl | | ].
  - intros Hnil. apply Hm. by rewrite Hnil.
  - apply Forall_forall. intros [k e2] Hk.
    apply absorbed_elem in Hk as (Hle & Hk & Hq).
    rewrite lookup_drop in Hk. replace (S s + (k - S s)) with k in Hk by lia.
    unfold qualifies in Hq.
    apply andb_prop in Hq as [Hq Hsim]. apply andb_prop in Hq as [_ Hne].
    apply bool_decide_eq_true in Hne. apply Qle_bool_iff in Hsim. cbn.
    repeat split; [lia | exact Hk | | exact Hsim].
    intros Hnil. apply Hne. by rewrite Hnil.
Qed.

Lemma group_members_similar_witness :
  exists g, g ∈ group_similar_errors chain_batch (4 # 10)
    /\ exists s e ms,
         entries g = (s, e) :: ms /\ chain_batch !! s = Some e
         /\ message e <> []
         /\ representative g = take 100 (message e)
         /\ g_log_level g = log_level e
         /\ Forall (fun m =>
              s < m.1 /\ chain_batch !! m.1 = Some m.2 /\ message m.2 <> []
              /\ (4 # 10 <= calculate_similarity (lower (message e))
                               (lower (message m.2)))%Q) ms.
Proof.
  destruct (group_similar_errors chain_batch (4 # 10)) as [|g gs] eqn:Hg;
    [vm_compute in Hg; discriminate|].
  assert (H : g ∈ group_similar_errors chain_batch (4 # 10))
    by (rewrite Hg; left).
  exists g. split; [left | exact (group_members_similar _ _ _ H)].
Defined.

Lemma absorbed_position (message1 : str) (tau : Q) (P : gset nat)
    (rest : list Entry) (j k : nat) :
  k ∈ (absorbed message1 tau P j rest).*1 -> j <= k /\ k ∉ P.
Proof.
  intros ([k' e] & -> & Hin)%list_elem_of_fmap.
  apply absorbed_elem in Hin as (Hle & _ & Hq). cbn. split; [exact Hle|].
  unfold qualifies in Hq. apply andb_prop in Hq as [Hq _].
  apply andb_prop in Hq as [Hq _]. by apply bool_decide_eq_true in Hq.
Qed.

Lemma absorbed_NoDup (message1 : str) (tau : Q) (P : gset nat)
    (rest : list Entry) :
  forall j, NoDup (absorbed message1 tau P j rest).*1.
Proof.
  induction rest as [|e rest IH]; intros j; cbn [absorbed].
  - constructor.
  - destruct (qualifies message1 tau P j e); [|apply IH].
    cbn [fmap list_fmap fst]. constructor; [|apply IH].
    intros Hin. apply absorbed_position in Hin. lia.
Qed.

Lemma group_loop_covered (tau : Q) (rest : list Entry) :
  forall i gs P, covered gs P ->
  covered (group_loop tau i rest (gs, P)).1 (group_loop tau i rest (gs, P)).2.
Proof.
  induction rest as [|e1 rest IH]; intros i gs P Hc; [exact Hc|].
  rewrite group_loop_cons.
  destruct (decide (i ∈ P)) as [|Hi]; [by apply IH|].
  destruct (decide (lower (message e1) = [])); [by apply IH|].
  cbv zeta.
  destruct (absorbed (lower (message e1)) tau P (S i) rest) as [|x ms] eqn:Ha;
    [by apply IH|].
  apply IH. destruct Hc as [Hnd Hin]. rewrite <- Ha.
  set (abs := absorbed (lower (message e1)) tau P (S i) rest).
  assert (Hpos : concat (map positions
                   (gs ++ [add_members (new_group (length gs + 1) i e1) abs]))
                 = concat (map positions gs) ++ i :: abs.*1).
  { rewrite map_app, concat_app. f_equal. cbn. by rewrite app_nil_r. }
  split.
  - rewrite Hpos. apply NoDup_app. split; [exact Hnd|]. split.
    + intros p Hp [->|Hp']%elem_of_cons.
      * apply Hi. by apply Hin.
      * apply absorbed_position in Hp' as [_ Hp']. apply Hp'. by apply Hin.
    + constructor; [|apply absorbed_NoDup].
      intros Hp. apply absorbed_position in Hp. lia.
  - intros p. rewrite Hpos.
    rewrite elem_of_app, elem_of_cons, !elem_of_union, elem_of_singleton,
      elem_of_list_to_set.
    intros [Hp|[->|Hp]]; auto.
Qed.

Lemma insert_group_Permutation (x : Group) (l : list Group) :
  insert_group x l ≡ₚ x :: l.
Proof.
  induction l as [|y l IH]; cbn [insert_group]; [reflexivity|].
  destruct (count x <? count y); [|reflexivity].
  rewrite IH. apply Permutation_swap.
Qed.

Lemma sort_groups_Permutation (l : list Group) : sort_groups l ≡ₚ l.
Proof.
  induction l as [|x l IH]; cbn; [reflexivity|].
  by rewrite insert_group_Permutation, IH.
Qed.

Lemma positions_Permutation (l k : list Group) :
  l ≡ₚ k -> concat (map positions l) ≡ₚ concat (map positions k).
Proof.
  induction 1 as [|x l k _ IH|x y l|l k m _ IH1 _ IH2]; cbn.
  - reflexivity.
  - by rewrite IH.
  - rewrite !app_assoc. f_equiv. apply Permutation_app_comm.
  - by rewrite IH1.
Qed.

(** X3: no entry is put in two groups, or twice in one: the batch
    positions held by the returned groups are all different. *)
Theorem groups_are_disjoint (batch : list Entry) (tau : Q) :
  NoDup (concat (map positions (group_similar_errors batch tau))).
Proof.
  unfold group_similar_errors. destruct batch as [|e0 batch]; [constructor|].
  pose proof (group_loop_covered tau (e0 :: batch) 0 [] ∅) as Hc.
  destruct (group_loop tau 0 (e0 :: batch) ([], ∅)) as [gs P].
  destruct Hc as [Hnd _].
  { split; [constructor|]. intros p Hp. by apply elem_of_nil in Hp. }
  cbn [fst] in Hnd.
  rewrite <- (positions_Permutation _ _ (sort_groups_Permutation gs)) in Hnd.
  rewrite <- (take_drop 20 (sort_groups gs)), map_app, concat_app in Hnd.
  by apply NoDup_app in Hnd as [Hnd _].
Qed.

Lemma StronglySorted_prefix {A : Type} (R : A -> A -> Prop) (l1 l2 : list A) :
  StronglySorted R (l1 ++ l2) -> StronglySorted R l1.
Proof.
  induction l1 as [|x l1 IH]; cbn; [constructor|].
  intros H. apply StronglySorted_inv in H as [Hs Hx].
  constructor; [by apply IH|].
  apply Forall_app in Hx. tauto.
Qed.

Lemma insert_group_sorted (x : Group) (l : list Group) :
  StronglySorted larger_first l ->
  StronglySorted larger_first (insert_group x l).
Proof.
  induction 1 as [|y l Hs IH Hy]; cbn [insert_group].
  - repeat constructor.
  - destruct (Nat.ltb_spec (count x) (count y)) as [Hlt|Hge].
    + constructor; [exact IH|].
      rewrite (insert_group_Permutation x l). constructor; [|exact Hy].
      unfold larger_first. lia.
    + constructor; [by constructor|]. constructor; [exact Hge|].
      eapply Forall_impl; [exact Hy|]. unfold larger_first. intros; lia.
Qed.

Lemma sort_groups_sorted (l : list Group) :
  StronglySorted larger_first (sort_groups l).
Proof.
  induction l as [|x l IH]; cbn; [constructor | by apply insert_group_sorted].
Qed.

(** X4: at most 20 groups are returned, the larger ones first. *)
Theorem groups_capped_and_sorted (batch : list Entry) (tau : Q) :
  length (group_similar_errors batch tau) <= 20
  /\ StronglySorted larger_first (group_similar_errors batch tau).
Proof.
  unfold group_similar_errors. destruct batch as [|e0 batch].
  { split; [cbn; lia | constructor]. }
  destruct (group_loop tau 0 (e0 :: batch) ([], ∅)) as [gs P].
  split; [rewrite length_take; lia|].
  pose proof (sort_groups_sorted gs) as Hs.
  rewrite <- (take_drop 20 (sort_groups gs)) in Hs.
  by apply StronglySorted_prefix in Hs.
Qed.

End GroupFacts.

(** ** The similarity score lies between 0 and 1 *)

Section RatioFacts.
Import Difflib.
Variables a b : str.

Lemma row_within_b (i blo bhi : nat) (j2len : gmap nat nat) (js : list nat) :
  bounded_b blo j2len ->
  forall st, bounded_b blo st.1 -> within_b blo bhi st.2 ->
  bounded_b blo (row i blo bhi j2len js st).1
  /\ within_b blo bhi (row i blo bhi j2len js st).2.
Proof.
  intros Hlen. induction js as [|j js IH]; intros st Hb Hw; cbn [row].
  - auto.
  - destruct (Nat.ltb_spec j blo) as [|Hj]; [by apply IH|].
    destruct (Nat.leb_spec bhi j) as [|Hj']; [auto|].
    destruct st as [newj2len [[besti bestj] bestsize]].
    set (k := match j with 0 => 1 | S j1 => default 0 (j2len !! j1) + 1 end).
    assert (Hk : 1 <= k <= j + 1 - blo).
    { subst k. destruct j as [|j1]; [lia|].
      destruct (j2len !! j1) as [x|] eqn:Hx; cbn; [|lia].
      apply Hlen in Hx. lia. }
    apply IH; cbn [fst snd].
    + intros j' x. rewrite lookup_insert. case_decide.
      * intros [= <-]. subst j'. lia.
      * apply Hb.
    + destruct (bestsize <? k); [|exact Hw]. unfold within_b. cbn. lia.
Qed.

Lemma rows_within_b (blo bhi : nat) :
  forall n i j2len best,
  bounded_b blo j2len -> within_b blo bhi best ->
  within_b blo bhi (rows a b n i blo bhi j2len best).
Proof.
  induction n as [|n IH]; intros i j2len best Hlen Hw; cbn [rows];
    [exact Hw|].
  destruct (a !! i) as [c|]; [|exact Hw].
  destruct (row i blo bhi j2len (b2j b c) (∅, best)) as [new best'] eqn:Hr.
  pose proof (row_within_b i blo bhi j2len (b2j b c) Hlen (∅, best)) as H.
  rewrite Hr in H. cbn [fst snd] in H.
  destruct H as [Hb' Hw'].
  { intros j x. by rewrite lookup_empty. }
  { exact Hw. }
  by apply IH.
Qed.

Lemma extend_left_within_b (alo blo bhi : nat) :
  forall besti bestj bestsize, within_b blo bhi (besti, bestj, bestsize) ->
  within_b blo bhi (extend_left a b alo blo besti bestj bestsize).
Proof.
  induction besti as [|i1 IH]; intros bestj bestsize Hw;
    cbn [extend_left]; [exact Hw|].
  destruct (alo <? S i1); cbn [andb]; [|exact Hw].
  destruct (Nat.ltb_spec blo bestj); cbn [andb]; [|exact Hw].
  destruct (bool_decide _); [|exact Hw].
  apply IH. unfold within_b in *. cbn in *. lia.
Qed.

Lemma extend_right_within_b (blo bhi besti bestj : nat) :
  forall gap bestsize, within_b blo bhi (besti, bestj, bestsize) ->
  within_b blo bhi (extend_right a b gap bhi besti bestj bestsize).
Proof.
  induction gap as [|gap IH]; intros bestsize Hw; cbn [extend_right];
    [exact Hw|].
  destruct (Nat.ltb_spec (bestj + bestsize) bhi); cbn [andb]; [|exact Hw].
  destruct (bool_decide _); [|exact Hw].
  apply IH. unfold within_b in *. cbn in *. lia.
Qed.

Lemma find_longest_match_within_b (alo ahi blo bhi : nat) :
  blo <= bhi -> within_b blo bhi (find_longest_match a b alo ahi blo bhi).
Proof.
  intros Hle. unfold find_longest_match.
  assert (H1 : within_b blo bhi
                 (rows a b (ahi - alo) alo blo bhi ∅ (alo, blo, 0))).
  { apply rows_within_b; [|unfold within_b; cbn; lia].
    intros j x. by rewrite lookup_empty. }
  destruct (rows a b (ahi - alo) alo blo bhi ∅ (alo, blo, 0))
    as [[besti bestj] bestsize].
  apply (extend_left_within_b alo) in H1.
  destruct (extend_left a b alo blo besti bestj bestsize)
    as [[besti' bestj'] bestsize'].
  by apply extend_right_within_b.
Qed.

Lemma size_sum_snoc (blocks : list (nat * nat * nat)) (i j k : nat) :
  size_sum (blocks ++ [(i, j, k)]) = size_sum blocks + k.
Proof.
  induction blocks as [|[[i' j'] k'] blocks IH]; cbn; [lia|].
  unfold size_sum in IH. rewrite IH. lia.
Qed.

Lemma span_a_cons (alo ahi blo bhi : nat)
    (queue : list (nat * nat * nat * nat)) :
  span_a ((alo, ahi, blo, bhi) :: queue) = (ahi - alo) + span_a queue.
Proof. reflexivity. Qed.

Lemma span_b_cons (alo ahi blo bhi : nat)
    (queue : list (nat * nat * nat * nat)) :
  span_b ((alo, ahi, blo, bhi) :: queue) = (bhi - blo) + span_b queue.
Proof. reflexivity. Qed.

(** The blocks found never add up to more than the slices still to be
    searched, on either side. *)
Lemma blocks_loop_span :
  forall fuel queue acc,
  Forall ordered queue -> Forall ordered_b queue ->
  size_sum (blocks_loop a b fuel queue acc) <= size_sum acc + span_a queue
  /\ size_sum (blocks_loop a b fuel queue acc) <= size_sum acc + span_b queue.
Proof.
  induction fuel as [|fuel IH]; intros queue acc Ha Hb;
    [cbn [blocks_loop]; lia|].
  destruct queue as [|[[[alo ahi] blo] bhi] queue]; [cbn [blocks_loop]; lia|].
  cbn [blocks_loop].
  apply Forall_cons in Ha as [Hia Ha]. apply Forall_cons in Hb as [Hib Hb].
  unfold ordered in Hia. unfold ordered_b in Hib. cbn in Hia, Hib.
  pose proof (find_longest_match_within a b alo ahi blo bhi Hia) as Hwa.
  pose proof (find_longest_match_within_b alo ahi blo bhi Hib) as Hwb.
  destruct (find_longest_match a b alo ahi blo bhi) as [[i j] k].
  unfold within in Hwa. unfold within_b in Hwb. cbn in Hwa, Hwb.
  rewrite span_a_cons, span_b_cons.
  destruct k as [|k].
  { destruct (IH queue acc Ha Hb). lia. }
  match goal with |- context [blocks_loop a b fuel ?q ?acc'] =>
    destruct (IH q acc') as [IHa IHb]
  end.
  - repeat (destruct (_ && _));
      repeat (apply Forall_cons_2; [unfold ordered; cbn; lia|]); exact Ha.
  - repeat (destruct (_ && _));
      repeat (apply Forall_cons_2; [unfold ordered_b; cbn; lia|]); exact Hb.
  - rewrite size_sum_snoc in IHa, IHb.
    split; [etransitivity; [exact IHa|] | etransitivity; [exact IHb|]];
      repeat (destruct (_ && _)); rewrite ?span_a_cons, ?span_b_cons; lia.
Qed.

Lemma matches_le : matches a b <= length a /\ matches a b <= length b.
Proof.
  unfold matches, matching_blocks.
  destruct (blocks_loop_span (2 * length a + 2) [(0, length a, 0, length b)] [])
    as [Ha Hb].
  - repeat constructor. unfold ordered. cbn. lia.
  - repeat constructor. unfold ordered_b. cbn. lia.
  - unfold size_sum in *. cbn in Ha, Hb. cbn. lia.
Qed.

Lemma Qnat_nonneg (n : nat) : (0 <= Qnat n)%Q.
Proof. unfold Qnat, Qle. cbn. lia. Qed.

Lemma Qnat_le (n m : nat) : n <= m -> (Qnat n <= Qnat m)%Q.
Proof. intros H. unfold Qnat, Qle. cbn. lia. Qed.

Lemma Qnat_pos (n : nat) : 0 < n -> (0 < Qnat n)%Q.
Proof. intros H. unfold Qnat, Qlt. cbn. lia. Qed.

Lemma fraction_bounds (n m : nat) :
  n <= m -> 0 < m -> (0 <= Qnat n / Qnat m <= 1)%Q.
Proof.
  intros Hle Hpos. split.
  - apply Qle_shift_div_l; [by apply Qnat_pos|].
    rewrite Qmult_0_l. apply Qnat_nonneg.
  - apply Qle_shift_div_r; [by apply Qnat_pos|].
    rewrite Qmult_1_l. by apply Qnat_le.
Qed.

Lemma ratio_bounds : (0 <= ratio a b <= 1)%Q.
Proof.
  unfold ratio. destruct (length a + length b) as [|n] eqn:Hn.
  - split; unfold Qle; cbn; lia.
  - destruct matches_le as [Ha Hb].
    assert (H2 : (2 * Qnat (matches a b) == Qnat (2 * matches a b))%Q).
    { unfold Qnat, Qeq. cbn. lia. }
    rewrite H2. apply fraction_bounds; lia.
Qed.

End RatioFacts.

Section SimilarityFacts.
Import PatternDetection.

Lemma weighted_bounds (j r : Q) :
  (0 <= j <= 1)%Q -> (0 <= r <= 1)%Q ->
  (0 <= j * (4 # 10) + r * (6 # 10) <= 1)%Q.
Proof.
  intros [Hj0 Hj1] [Hr0 Hr1]. split.
  - apply Qle_trans with (0 * (4 # 10) + 0 * (6 # 10))%Q;
      [unfold Qle; cbn; lia|].
    apply Qplus_le_compat; apply Qmult_le_compat_r; auto;
      unfold Qle; cbn; lia.
  - apply Qle_trans with (1 * (4 # 10) + 1 * (6 # 10))%Q;
      [|unfold Qle; cbn; lia].
    apply Qplus_le_compat; apply Qmult_le_compat_r; auto;
      unfold Qle; cbn; lia.
Qed.

(** The similarity is 0, or a weighted mean of two fractions. *)
Lemma calculate_similarity_cases (str1 str2 : str) :
  calculate_similarity str1 str2 = 0%Q
  \/ exists jaccard sequence_similarity : Q,
       (0 <= jaccard <= 1)%Q /\ (0 <= sequence_similarity <= 1)%Q
       /\ calculate_similarity str1 str2
          = (jaccard * (4 # 10) + sequence_similarity * (6 # 10))%Q.
Proof.
  assert (Hz : (0 <= 0 <= 1)%Q) by (split; unfold Qle; cbn; lia).
  unfold calculate_similarity.
  destruct str1 as [|c1 s1]; [by left|].
  destruct str2 as [|c2 s2]; [by left|].
  destruct (_ || _); [by left|].
  right. eexists _, _. split; [|split; [apply ratio_bounds | reflexivity]].
  destruct (Nat.ltb_spec 0
              (size (word_set (c1 :: s1) ∪ word_set (c2 :: s2))));
    [|exact Hz].
  apply fraction_bounds; [|assumption].
  apply subseteq_size. intros x Hx. apply elem_of_intersection in Hx as [Hx _].
  apply elem_of_union. by left.
Qed.

(** X5: the similarity of two texts is a number between 0 and 1. *)
Theorem similarity_in_unit_interval (str1 str2 : str) :
  (0 <= calculate_similarity str1 str2 <= 1)%Q.
Proof.
  destruct (calculate_similarity_cases str1 str2)
    as [->|(j & r & Hj & Hr & ->)].
  - split; unfold Qle; cbn; lia.
  - by apply weighted_bounds.
Qed.

Lemma group_loop_nothing (tau : Q) (rest : list Entry) :
  (1 < tau)%Q ->
  forall i gs P, group_loop tau i rest (gs, P) = (gs, P).
Proof.
  intros Htau.
  assert (Hq : forall m P j e, qualifies m tau P j e = false).
  { intros m P j e. unfold qualifies.
    destruct (Qle_bool tau _) eqn:Hle; [|by rewrite andb_false_r].
    apply Qle_bool_iff in Hle.
    assert (H1 : (calculate_similarity m (lower (message e)) <= 1)%Q).
    { destruct (calculate_similarity_cases m (lower (message e)))
        as [->|(jc & r & Hjc & Hr & ->)]; [unfold Qle; cbn; lia|].
      by apply weighted_bounds. }
    exfalso. apply (Qlt_irrefl 1).
    eapply Qlt_le_trans; [exact Htau|]. eapply Qle_trans; eassumption. }
  assert (Ha : forall m P rest' j, absorbed m tau P j rest' = []).
  { intros m P rest'. induction rest' as [|e rest' IH]; intros j;
      cbn [absorbed]; [reflexivity|]. by rewrite Hq. }
  induction rest as [|e1 rest IH]; intros i gs P; [reflexivity|].
  rewrite group_loop_cons. rewrite Ha.
  repeat (destruct (decide _)); apply IH.
Qed.

(** X6: with a threshold above 1 nothing is similar enough: no group is
    returned, whatever the batch. *)
Theorem threshold_above_one_groups_nothing (batch : list Entry) (tau : Q) :
  (1 < tau)%Q -> group_similar_errors batch tau = [].
Proof.
  intros Htau. unfold group_similar_errors.
  destruct batch as [|e0 batch]; [reflexivity|].
  by rewrite group_loop_nothing.
Qed.

Lemma threshold_above_one_groups_nothing_witness :
  (1 < 11 # 10)%Q /\ group_similar_errors chain_batch (11 # 10) = [].
Proof.
  assert (H : (1 < 11 # 10)%Q) by (unfold Qlt; cbn; lia).
  split; [exact H | exact (threshold_above_one_groups_nothing _ _ H)].
Defined.

End SimilarityFacts.

(** ** Stripping, splitting and joining *)

Section TextFacts.
Variable p : ascii -> bool.

Lemma lstrip_by_split (s : str) :
  exists ws, s = ws ++ lstrip_by p s /\ Forall (fun c => p c = true) ws.
Proof.
  induction s as [|c s (ws & Hs & Hws)]; [by exists []|].
  cbn [lstrip_by]. destruct (p c) eqn:Hc; [|by exists []].
  exists (c :: ws). split; [cbn; congruence | by constructor].
Qed.

Lemma lstrip_by_head (s : str) (c : ascii) :
  head (lstrip_by p s) = Some c -> p c = false.
Proof.
  induction s as [|x s IH]; [discriminate|]. cbn [lstrip_by].
  destruct (p x) eqn:Hx; [exact IH|]. cbn. congruence.
Qed.

Lemma lstrip_by_all (ws : str) :
  Forall (fun c => p c = true) ws -> forall s,
  lstrip_by p (ws ++ s) = lstrip_by p s.
Proof.
  induction 1 as [|c ws Hc _ IH]; intros s; [reflexivity|].
  cbn [app lstrip_by]. by rewrite Hc.
Qed.

Lemma lstrip_by_keep (s t : str) :
  lstrip_by p s <> [] -> lstrip_by p (s ++ t) = lstrip_by p s ++ t.
Proof.
  induction s as [|c s IH]; [done|]. cbn [app lstrip_by].
  destruct (p c); [exact IH | reflexivity].
Qed.

Lemma lstrip_by_fixed (s : str) :
  (forall c, head s = Some c -> p c = false) -> lstrip_by p s = s.
Proof.
  destruct s as [|c s]; [reflexivity|]. intros H. cbn [lstrip_by].
  by rewrite (H c).
Qed.

Lemma rstrip_by_all (s ws : str) :
  Forall (fun c => p c = true) ws -> rstrip_by p (s ++ ws) = rstrip_by p s.
Proof.
  intros Hws. unfold rstrip_by. rewrite rev_app_distr, lstrip_by_all;
    [reflexivity|].
  apply Forall_forall. intros c Hc. rewrite Forall_forall in Hws. apply Hws.
  apply list_elem_of_In. apply list_elem_of_In in Hc. by apply in_rev.
Qed.

Lemma rstrip_by_split (s : str) :
  exists ws, s = rstrip_by p s ++ ws /\ Forall (fun c => p c = true) ws.
Proof.
  destruct (lstrip_by_split (rev s)) as (ws & Hs & Hws).
  exists (rev ws). unfold rstrip_by. split.
  - rewrite <- rev_app_distr, <- Hs. by rewrite rev_involutive.
  - apply Forall_forall. intros c Hc. rewrite Forall_forall in Hws. apply Hws.
    apply list_elem_of_In. apply list_elem_of_In in Hc. by apply in_rev.
Qed.

Lemma last_rev_cons (c : ascii) (s : str) : last (rev (c :: s)) = Some c.
Proof. cbn [rev]. apply last_snoc. Qed.

Lemma rstrip_by_last (s : str) (c : ascii) :
  last (rstrip_by p s) = Some c -> p c = false.
Proof.
  unfold rstrip_by. destruct (lstrip_by p (rev s)) as [|x t] eqn:Hl;
    [discriminate|].
  rewrite last_rev_cons. intros [= <-].
  apply (lstrip_by_head (rev s)). by rewrite Hl.
Qed.

Lemma rstrip_by_fixed (s : str) :
  (forall c, last s = Some c -> p c = false) -> rstrip_by p s = s.
Proof.
  intros H. unfold rstrip_by. rewrite lstrip_by_fixed; [apply rev_involutive|].
  intros c Hc. apply H. destruct (rev s) as [|x t] eqn:Hr; [discriminate|].
  injection Hc as ->. rewrite <- (rev_involutive s), Hr. apply last_rev_cons.
Qed.

Lemma rstrip_by_head (s : str) (c : ascii) :
  head (rstrip_by p s) = Some c -> head s = Some c.
Proof.
  destruct (rstrip_by_split s) as (ws & Hs & _).
  destruct (rstrip_by p s) as [|x t]; [discriminate|].
  intros [= ->]. by rewrite Hs.
Qed.

Lemma strip_by_pad (ws1 s ws2 : str) :
  Forall (fun c => p c = true) ws1 -> Forall (fun c => p c = true) ws2 ->
  strip_by p (ws1 ++ s ++ ws2) = strip_by p s.
Proof.
  intros H1 H2. unfold strip_by. rewrite lstrip_by_all by exact H1.
  destruct (lstrip_by p s) as [|c t] eqn:Hl.
  - destruct (lstrip_by_split s) as (ws & Hs & Hws).
    rewrite Hl, app_nil_r in Hs.
    subst ws. rewrite <- (app_nil_r (s ++ ws2)), <- app_assoc.
    rewrite lstrip_by_all by exact Hws. by rewrite lstrip_by_all.
  - rewrite lstrip_by_keep by (rewrite Hl; discriminate).
    rewrite Hl. by apply rstrip_by_all.
Qed.

Lemma strip_by_sublist (s : str) : strip_by p s `sublist_of` s.
Proof.
  unfold strip_by. destruct (lstrip_by_split s) as (ws & Hs & _).
  destruct (rstrip_by_split (lstrip_by p s)) as (ws' & Hs' & _).
  rewrite Hs at 2. apply sublist_inserts_l.
  rewrite Hs' at 2. by apply sublist_inserts_r.
Qed.

End TextFacts.

Lemma strip_trimmed (s : str) : trimmed (strip s).
Proof.
  unfold strip, strip_by. split.
  - intros c Hc. apply rstrip_by_head in Hc. by apply lstrip_by_head in Hc.
  - apply rstrip_by_last.
Qed.

Lemma trimmed_strip (s : str) : trimmed s -> strip s = s.
Proof.
  intros [Hh Hl]. unfold strip, strip_by.
  rewrite lstrip_by_fixed by exact Hh. by apply rstrip_by_fixed.
Qed.

Lemma strip_pad (ws1 s ws2 : str) :
  Forall (fun c => is_space c = true) ws1 ->
  Forall (fun c => is_space c = true) ws2 ->
  strip (ws1 ++ s ++ ws2) = strip s.
Proof. apply strip_by_pad. Qed.

Lemma split_ws_aux_words (s : str) :
  forall cur, Forall (fun c => is_space c = false) cur ->
  Forall is_wordlike (split_ws_aux cur s).
Proof.
  assert (Hrev : forall c cur,
             Forall (fun c => is_space c = false) (c :: cur) ->
                 is_wordlike (rev (c :: cur))).
  { intros c cur H. split.
    - cbn [rev]. by destruct (rev cur).
    - apply Forall_forall. intros x Hx. rewrite Forall_forall in H. apply H.
      apply list_elem_of_In. apply list_elem_of_In in Hx. by apply in_rev. }
  induction s as [|c s IH]; intros cur Hcur; cbn [split_ws_aux].
  - destruct cur; [constructor | repeat constructor; by apply Hrev].
  - destruct (is_space c) eqn:Hc.
    + destruct cur; [apply IH; constructor|].
      constructor; [by apply Hrev | apply IH; constructor].
    + apply IH. by constructor.
Qed.

Lemma join_words_trimmed (ws : list str) :
  Forall is_wordlike ws -> trimmed (join (txt " ") ws).
Proof.
  induction 1 as [|w ws [Hne Hw] Hws [IHh IHl]]; [split; discriminate|].
  assert (Hhead : forall t c, head (w ++ t) = Some c -> is_space c = false).
  { intros t c. destruct w as [|x w]; [done|]. cbn. intros [= <-].
    by apply Forall_cons in Hw as [Hx _]. }
  assert (Hlast : forall c, last w = Some c -> is_space c = false).
  { intros c Hc. rewrite Forall_forall in Hw. apply Hw.
    apply last_Some_elem_of. exact Hc. }
  cbn [join]. destruct ws as [|w' ws].
  - split; [|exact Hlast]. intros c. rewrite <- (app_nil_r w). apply Hhead.
  - split; [apply Hhead|]. intros c.
    change (match w' :: ws with [] => w' | _ => _ end)
      with (join (txt " ") (w' :: ws)) in *.
    rewrite app_assoc.
    assert (Hj : join (txt " ") (w' :: ws) <> []).
    { apply Forall_cons in Hws as [[Hw' _] _]. cbn [join].
      destruct ws; destruct w'; done. }
    destruct (join (txt " ") (w' :: ws)) as [|x t] eqn:Hjoin using rev_ind;
      [done|].
    rewrite app_assoc, last_snoc. intros [= <-]. apply IHl. apply last_snoc.
Qed.

Lemma ink_app (s t : str) : ink (s ++ t) = ink s ++ ink t.
Proof. apply filter_app. Qed.

Lemma ink_sublist (s t : str) : s `sublist_of` t -> ink s `sublist_of` ink t.
Proof.
  unfold ink. induction 1 as [|x s t _ IH|x s t _ IH].
  - constructor.
  - rewrite !filter_cons. destruct (decide _); [by constructor | exact IH].
  - rewrite filter_cons. destruct (decide _); [by constructor | exact IH].
Qed.

Lemma ink_join (ws : list str) : ink (join (txt " ") ws) = ink (concat ws).
Proof.
  induction ws as [|w ws IH]; [reflexivity|].
  cbn [join concat]. destruct ws as [|w' ws].
  - by rewrite app_nil_r.
  - change (match w' :: ws with [] => w' | _ => _ end)
      with (join (txt " ") (w' :: ws)).
    rewrite !ink_app, IH. reflexivity.
Qed.

Lemma ink_split_ws_aux (s : str) :
  forall cur, ink (concat (split_ws_aux cur s)) = ink (rev cur ++ s).
Proof.
  induction s as [|c s IH]; intros cur; cbn [split_ws_aux].
  - destruct cur; [reflexivity|]. cbn [concat]. reflexivity.
  - destruct (is_space c) eqn:Hc.
    + assert (Hskip : ink (rev cur ++ c :: s) = ink (rev cur) ++ ink s).
      { rewrite ink_app. unfold ink at 2. rewrite filter_cons.
        destruct (decide _); [congruence | reflexivity]. }
      rewrite Hskip. destruct cur.
      * rewrite IH. reflexivity.
      * cbn [concat]. rewrite ink_app, IH. reflexivity.
    + rewrite IH. cbn [rev]. by rewrite <- app_assoc.
Qed.

Lemma ink_collapse (s : str) : ink (join (txt " ") (split_ws s)) = ink s.
Proof. rewrite ink_join. apply (ink_split_ws_aux s []). Qed.

Lemma sub_del_sublist (r : regex) (s : str) :
  forall count prev skip, sub_del r count prev skip s `sublist_of` s.
Proof.
  induction s as [|c s IH]; intros count prev skip; cbn [sub_del];
    [constructor|].
  destruct skip; [|by constructor].
  assert (Hkeep : c :: sub_del r count (Some c) 0 s `sublist_of` c :: s)
    by (by constructor).
  destruct count as [[|n]|]; [reflexivity | |];
    (destruct (match_here r prev (c :: s)) as [[[|k] caps]|];
       [exact Hkeep | by constructor | exact Hkeep]).
Qed.

Lemma remove_patterns_sublist (pats : list regex) (m : str) :
  remove_patterns pats m `sublist_of` m.
Proof.
  unfold remove_patterns. revert m.
  induction pats as [|q pats IH]; intros m; cbn [fold_left]; [reflexivity|].
  etransitivity; [apply IH|].
  etransitivity; [apply strip_by_sublist | apply sub_del_sublist].
Qed.

(** ** Parsed lines and files *)

Section MoreParseFacts.

Lemma strptime_valid (s : str) (fmt : string) (t : datetime) :
  strptime s fmt = Some t -> valid_datetime t.
Proof.
  unfold strptime. destruct (format_regex (txt fmt)); [|discriminate].
  destruct (re_fullmatch _ _); [|discriminate].
  repeat (destruct (group_int _ _); [|discriminate]).
  unfold make_datetime.
  match goal with |- context [if ?c then _ else _] => destruct c eqn:Hc end;
    [|discriminate].
  intros [= <-]. unfold valid_datetime.
  cbn [dt_year dt_month dt_day dt_hour dt_minute dt_second].
  repeat (apply andb_prop in Hc as [Hc ?]).
  repeat match goal with
         | H : (_ <=? _) = true |- _ => apply Nat.leb_le in H
         | H : (_ <? _) = true |- _ => apply Nat.ltb_lt in H
         end.
  repeat split; assumption.
Qed.

Lemma try_formats_valid (fmts : list string) (s : str) (t : datetime) :
  try_formats fmts s = Some t -> valid_datetime t.
Proof.
  induction fmts as [|fmt fmts IH]; [discriminate|]. cbn [try_formats].
  destruct (strptime s fmt) eqn:Hs; [|exact IH].
  intros [= <-]. by eapply strptime_valid.
Qed.

Lemma extract_timestamp_valid (line : str) (t : datetime) :
  extract_timestamp line = Some t -> valid_datetime t.
Proof.
  unfold extract_timestamp. generalize TIMESTAMP_PATTERNS.
  intros pats. induction pats as [|q pats IH]; [discriminate|].
  cbn [extract_timestamp_from].
  destruct (re_search q line) as [m|]; [|exact IH].
  destruct (parse_match m) eqn:Hm; [|exact IH].
  intros [= <-]. by eapply try_formats_valid.
Qed.

Lemma parse_line_strip (line : str) (n : nat) :
  parse_line (strip line) n = parse_line line n.
Proof.
  unfold parse_line. by rewrite (trimmed_strip _ (strip_trimmed line)).
Qed.

(** X7: a timestamp on a parsed entry is a date and a time that exist:
    year 1 to 9999, month 1 to 12, a day of that month (leap years counted),
    hour up to 23, minute and second up to 59. *)
Theorem parsed_timestamp_valid (line : str) (n : nat) (e : Entry)
    (t : datetime) :
  parse_line line n = Some e -> timestamp e = Some t -> valid_datetime t.
Proof.
  unfold parse_line. destruct (strip line) as [|c l]; [discriminate|].
  intros [= <-]. cbn [timestamp]. apply extract_timestamp_valid.
Qed.

Lemma parsed_timestamp_valid_witness :
  parse_line doubled_stamp 1
  = Some {| line_number := 1; log_level := None;
            timestamp := Some (DateTime 2024 1 15 10 30 45);
            message := txt "x"; raw_line := doubled_stamp |}
  /\ valid_datetime (DateTime 2024 1 15 10 30 45).
Proof.
  assert (H : parse_line doubled_stamp 1
              = Some {| line_number := 1; log_level := None;
                        timestamp := Some (DateTime 2024 1 15 10 30 45);
                        message := txt "x"; raw_line := doubled_stamp |})
    by (vm_compute; reflexivity).
  split; [exact H|].
  exact (parsed_timestamp_valid _ _ _ _ H eq_refl).
Defined.

(** X8: white space around a line does not matter: a line padded on either
    side with white space (a line terminator, indentation) parses to the
    same entry, or to none, as the line itself. *)
Theorem parse_line_ignores_padding (ws1 line ws2 : str) (n : nat) :
  Forall (fun c => is_space c = true) ws1 ->
  Forall (fun c => is_space c = true) ws2 ->
  parse_line (ws1 ++ line ++ ws2) n = parse_line line n.
Proof.
  intros H1 H2. rewrite <- (parse_line_strip (ws1 ++ line ++ ws2)).
  rewrite strip_pad by assumption. apply parse_line_strip.
Qed.

Lemma parse_line_ignores_padding_witness :
  Forall (fun c => is_space c = true) (txt "  ")
  /\ Forall (fun c => is_space c = true) [newline]
  /\ parse_line (txt "  " ++ txt "ERROR boom" ++ [newline]) 1
     = parse_line (txt "ERROR boom") 1.
Proof.
  assert (H1 : Forall (fun c => is_space c = true) (txt "  "))
    by (repeat constructor).
  assert (H2 : Forall (fun c => is_space c = true) [newline])
    by (repeat constructor).
  split; [exact H1|]. split; [exact H2|].
  exact (parse_line_ignores_padding _ _ _ 1 H1 H2).
Defined.

(** X9: the message of a parsed entry has no white space at its ends:
    stripping it again changes nothing. *)
Theorem parsed_message_trimmed (line : str) (n : nat) (e : Entry) :
  parse_line line n = Some e -> strip (message e) = message e.
Proof.
  unfold parse_line. destruct (strip line) as [|c l] eqn:Hs; [discriminate|].
  intros [= <-]. lazy beta iota zeta delta [message]. apply trimmed_strip.
  match goal with |- context [join ?x (split_ws ?y)] =>
    destruct (join x (split_ws y)) eqn:Hjoin;
    [|rewrite <- Hjoin;
      exact (join_words_trimmed (split_ws y)
               (split_ws_aux_words y [] (Forall_nil_2 _)))]
  end.
  rewrite <- Hs. apply strip_trimmed.
Qed.

Lemma parsed_message_trimmed_witness :
  parse_line boom_line 1 = Some boom_entry
  /\ strip (message boom_entry) = message boom_entry.
Proof.
  assert (H : parse_line boom_line 1 = Some boom_entry)
    by (vm_compute; reflexivity).
  split; [exact H | exact (parsed_message_trimmed _ _ _ H)].
Defined.

(** X10: cleaning only takes characters away: apart from white space, the
    characters of the message are characters of the line, in the same
    order. *)
Theorem parsed_message_from_line (line : str) (n : nat) (e : Entry) :
  parse_line line n = Some e -> ink (message e) `sublist_of` ink line.
Proof.
  unfold parse_line. destruct (strip line) as [|c l] eqn:Hs; [discriminate|].
  intros [= <-]. lazy beta iota zeta delta [message].
  assert (Hline : ink (c :: l) `sublist_of` ink line).
  { rewrite <- Hs. apply ink_sublist, strip_by_sublist. }
  match goal with |- context [join ?x (split_ws ?y)] =>
    pose proof (ink_collapse y) as Hj;
    change (ink (join x (split_ws y)) = ink y) in Hj;
    assert (Hy : y `sublist_of` c :: l);
    [|destruct (join x (split_ws y)) eqn:Hjoin;
      [exact Hline|]]
  end.
  - destruct (extract_timestamp (c :: l)); destruct (detect_log_level (c :: l));
      repeat first
        [ reflexivity
        | etransitivity; [apply remove_patterns_sublist|]
        | etransitivity; [apply strip_by_sublist|]
        | etransitivity; [apply sub_del_sublist|] ].
  - rewrite Hj. etransitivity; [|exact Hline]. by apply ink_sublist.
Qed.

Lemma parsed_message_from_line_witness :
  parse_line boom_line 1 = Some boom_entry
  /\ ink (message boom_entry) `sublist_of` ink boom_line.
Proof.
  assert (H : parse_line boom_line 1 = Some boom_entry)
    by (vm_compute; reflexivity).
  split; [exact H | exact (parsed_message_from_line _ _ _ H)].
Defined.

Lemma parse_line_shift (line : str) (n k : nat) :
  parse_line line (n + k) = shift_line k <$> parse_line line n.
Proof. unfold parse_line. by destruct (strip line). Qed.

Lemma parse_lines_shift (lines : list str) (k : nat) :
  forall idx,
  parse_lines (idx + k) lines = map (shift_line k) (parse_lines idx lines).
Proof.
  induction lines as [|l lines IH]; intros idx; cbn [parse_lines];
    [reflexivity|].
  rewrite parse_line_shift. change (S (idx + k)) with (S idx + k).
  rewrite IH. by destruct (parse_line l idx).
Qed.

Lemma parse_lines_app (l1 l2 : list str) :
  forall idx, parse_lines idx (l1 ++ l2)
              = parse_lines idx l1 ++ parse_lines (idx + length l1) l2.
Proof.
  induction l1 as [|l l1 IH]; intros idx; cbn [app parse_lines length].
  - by rewrite Nat.add_0_r.
  - rewrite IH. replace (S idx + length l1) with (idx + S (length l1)) by lia.
    by destruct (parse_line l idx).
Qed.

Lemma split_lines_aux_app (s1 s2 : str) :
  forall cur, split_lines_aux cur (s1 ++ newline :: s2)
              = split_lines_aux cur s1 ++ split_lines_aux [] s2.
Proof.
  induction s1 as [|c s1 IH]; intros cur; cbn [app split_lines_aux].
  - assert (H : ascii_eqb newline newline = true) by reflexivity.
    by rewrite H.
  - destruct (ascii_eqb c newline); by rewrite IH.
Qed.

(** X11: parsing composes over line feeds: the entries of two texts joined
    by a line feed are the entries of the first, followed by the entries of
    the second renumbered by the number of lines of the first. *)
Theorem parse_file_app (content1 content2 : str) :
  parse_file (content1 ++ newline :: content2)
  = parse_file content1
    ++ map (shift_line (length (split_lines content1))) (parse_file content2).
Proof.
  unfold parse_file, split_lines. rewrite split_lines_aux_app, parse_lines_app.
  f_equal. apply parse_lines_shift.
Qed.

Lemma parse_lines_length (lines : list str) :
  forall idx, length (parse_lines idx lines)
              = length (filter (fun l => strip l <> []) lines).
Proof.
  induction lines as [|l lines IH]; intros idx; cbn [parse_lines];
    [reflexivity|].
  rewrite filter_cons. destruct (parse_line l idx) eqn:Hp.
  - apply parse_line_fields in Hp as [Hs _].
    rewrite decide_True by exact Hs. cbn [length]. by rewrite IH.
  - apply parse_line_None in Hp. rewrite decide_False by tauto. apply IH.
Qed.

(** X12: a file gives exactly one entry per line that is not blank. *)
Theorem parse_file_length (content : str) :
  length (parse_file content)
  = length (filter (fun l => strip l <> []) (split_lines content)).
Proof. apply parse_lines_length. Qed.

End MoreParseFacts.

(** ** The streaming loop *)

Section StreamFacts.
Import Tasks.

Lemma stream_loop_spec (lines : list str) :
  forall idx st,
  length (parsed_entries st) < 100 ->
  Forall (fun batch => length batch = 100) (saved st) ->
  concat (saved (stream_loop idx lines st))
    ++ parsed_entries (stream_loop idx lines st)
  = concat (saved st) ++ parsed_entries st ++ parse_lines idx lines
  /\ total_lines (stream_loop idx lines st)
     = total_lines st + length (parse_lines idx lines)
  /\ length (parsed_entries (stream_loop idx lines st)) < 100
  /\ Forall (fun batch => length batch = 100)
            (saved (stream_loop idx lines st)).
Proof.
  induction lines as [|l lines IH]; intros idx st Hbuf Hsaved;
    cbn [stream_loop parse_lines].
  - rewrite app_nil_r. cbn. auto with lia.
  - destruct (parse_line l idx) as [e|]; [|by apply IH].
    assert (Hlen : length (parsed_entries st ++ [e])
                   = S (length (parsed_entries st)))
      by (rewrite length_app; cbn; lia).
    destruct (Nat.leb_spec 100 (length (parsed_entries st ++ [e])))
      as [Hfull|Hroom].
    + match goal with |- context [stream_loop (S idx) lines ?st'] =>
        destruct (IH (S idx) st') as (H1 & H2 & H3 & H4)
      end; cbn [parsed_entries saved total_lines] in *.
      * cbn. lia.
      * apply Forall_app. split; [exact Hsaved|]. repeat constructor. lia.
      * split; [|split; [|split]]; [|cbn [length]; lia | exact H3 | exact H4].
        rewrite H1. rewrite concat_app. cbn [concat app].
        rewrite app_nil_r, <- !app_assoc. reflexivity.
    + match goal with |- context [stream_loop (S idx) lines ?st'] =>
        destruct (IH (S idx) st') as (H1 & H2 & H3 & H4)
      end; cbn [parsed_entries saved total_lines] in *.
      * lia.
      * exact Hsaved.
      * split; [|split; [|split]]; [|cbn [length]; lia | exact H3 | exact H4].
        rewrite H1. rewrite <- !app_assoc. reflexivity.
Qed.

Lemma stream_file_concat (lines : list str) :
  concat (saved (stream_file lines)) = parse_lines 1 lines.
Proof.
  unfold stream_file.
  destruct (stream_loop_spec lines 1
              {| total_lines := 0; parsed_entries := []; saved := [] |})
    as (H1 & _); [cbn; lia | constructor |].
  cbn [parsed_entries saved total_lines concat app] in H1.
  destruct (parsed_entries (stream_loop 1 lines _)) as [|e rest].
  - by rewrite app_nil_r in H1.
  - cbn [saved]. rewrite concat_app. cbn [concat]. by rewrite app_nil_r.
Qed.

(** X13: the streaming loop saves, batch after batch, exactly the entries
    that parsing the lines one by one gives, in their order; every batch is
    non-empty and holds at most 100 entries, and every batch but the last
    holds exactly 100; [total_lines] is the number of entries saved. *)
Theorem stream_file_batches (lines : list str) :
  concat (saved (stream_file lines)) = parse_lines 1 lines
  /\ total_lines (stream_file lines) = length (parse_lines 1 lines)
  /\ (forall i batch, saved (stream_file lines) !! i = Some batch ->
        1 <= length batch <= 100
        /\ (S i < length (saved (stream_file lines)) -> length batch = 100)).
Proof.
  unfold stream_file.
  destruct (stream_loop_spec lines 1
              {| total_lines := 0; parsed_entries := []; saved := [] |})
    as (H1 & H2 & H3 & H4); [cbn; lia | constructor |].
  cbn [parsed_entries saved total_lines concat app] in H1, H2.
  set (st := stream_loop 1 lines
               {| total_lines := 0; parsed_entries := []; saved := [] |}) in *.
  destruct (parsed_entries st) as [|e rest] eqn:Hbuf.
  - rewrite app_nil_r in H1. split; [exact H1|]. split; [exact H2|].
    intros i batch Hi. rewrite Forall_forall in H4.
    rewrite (H4 batch) by (eapply list_elem_of_lookup_2; exact Hi). lia.
  - cbn [saved total_lines]. split; [|split; [exact H2|]].
    + rewrite concat_app. cbn [concat]. by rewrite app_nil_r.
    + intros i batch Hi. rewrite length_app. cbn [length].
      apply lookup_app_Some in Hi as [Hi|[Hge Hi]].
      * rewrite Forall_forall in H4.
        rewrite (H4 batch) by (eapply list_elem_of_lookup_2; exact Hi). lia.
      * apply list_lookup_singleton_Some in Hi as [Hi <-].
        cbn [length] in *. split; [lia|]. intros Hlt. lia.
Qed.

Lemma parse_lines_padded (lines lines' : list str) :
  Forall2 (fun l l' => strip l' = strip l) lines lines' ->
  forall idx, parse_lines idx lines' = parse_lines idx lines.
Proof.
  induction 1 as [|l l' lines lines' Hl _ IH]; intros idx; [reflexivity|].
  cbn [parse_lines].
  rewrite <- (parse_line_strip l'), Hl, parse_line_strip, IH. reflexivity.
Qed.

(** X14: the streaming path and [parse_file] agree: read line by line,
    with the lines differing from the pieces of [split] only in white space
    at their ends (such as the line terminators), the batches saved add up
    to the entries of [parse_file]. *)
Theorem stream_file_agrees (content : str) (lines : list str) :
  Forall2 (fun l l' => strip l' = strip l) (split_lines content) lines ->
  concat (saved (stream_file lines)) = parse_file content.
Proof.
  intros H. rewrite stream_file_concat. by apply parse_lines_padded.
Qed.

Lemma stream_file_agrees_witness :
  Forall2 (fun l l' => strip l' = strip l)
          (split_lines (txt "ERROR boom"))
          [txt "ERROR boom" ++ [newline]]
  /\ concat (saved (stream_file [txt "ERROR boom" ++ [newline]]))
     = parse_file (txt "ERROR boom").
Proof.
  assert (H : Forall2 (fun l l' => strip l' = strip l)
                (split_lines (txt "ERROR boom"))
                [txt "ERROR boom" ++ [newline]])
    by (repeat constructor).
  split; [exact H | exact (stream_file_agrees _ _ H)].
Defined.

End StreamFacts.

(** ** What the patterns need in order to match *)

Section MatchFacts.








End MatchFacts.

Section DigitFacts.

Lemma rep_try_fail {R : Type} (q : ascii -> bool) (lo : nat)
    (hi : option nat) (rest : str) (f : nat -> option R) :
  0 < lo -> (forall c, head rest = Some c -> q c = false) ->
  rep_try (run_length q hi rest) lo f = None.
Proof.
  intros Hlo Hhead.
  assert (Hrun : run_length q hi rest = 0).
  { destruct rest as [|c s]; [reflexivity|]. cbn [run_length].
    by rewrite (Hhead c). }
  rewrite Hrun. destruct lo; [lia | reflexivity].
Qed.

Lemma digit_free_head (s : str) (c : ascii) :
  digit_free s -> head s = Some c -> is_digit c = false.
Proof.
  intros H Hc. destruct s; [discriminate|]. injection Hc as <-.
  by inversion H.
Qed.

Ltac no_digit_match :=
  intros prev s Hs; unfold match_here;
  match goal with
  | |- context [rmatch ?r ?st Some] =>
      assert (Hfail : rmatch r st Some = None); [|by rewrite Hfail]
  end;
  cbv delta [PatternDetection.ip_pattern PatternDetection.octet
             Normalize.iso_date_pattern Normalize.slash_date_pattern
             Normalize.number_pattern date_ymd time_hms digits];
  cbn [rmatch seqs];
  repeat match goal with
         | |- (if ?b then _ else _) = None => destruct b; [|reflexivity]
         end;
  apply rep_try_fail; [lia|];
  intros c Hc; by apply (digit_free_head s).

Lemma ip_pattern_needs_digit : needs_digit PatternDetection.ip_pattern.
Proof. no_digit_match. Qed.

Lemma iso_date_pattern_needs_digit : needs_digit Normalize.iso_date_pattern.
Proof. no_digit_match. Qed.

Lemma slash_date_pattern_needs_digit :
  needs_digit Normalize.slash_date_pattern.
Proof. no_digit_match. Qed.

Lemma number_pattern_needs_digit : needs_digit Normalize.number_pattern.
Proof. no_digit_match. Qed.

Lemma timestamp_patterns_need_digit :
  Forall needs_digit TIMESTAMP_PATTERNS.
Proof.
  repeat constructor; try no_digit_match.
  intros prev s Hs. unfold match_here.
  match goal with
  | |- context [rmatch ?r ?st Some] =>
      assert (Hfail : rmatch r st Some = None); [|by rewrite Hfail]
  end.
  cbv delta [date_ymd time_hms digits].
  cbn [rmatch seqs ch lit lit_chars txt list_ascii_of_string m_rest].
  destruct s as [|c s]; [reflexivity|].
  destruct (chr_is false "[" c); [|reflexivity].
  apply rep_try_fail; [lia|]. cbn. intros c' Hc'.
  apply Forall_cons in Hs as [_ Hs]. by apply (digit_free_head s).
Qed.

Lemma search_from_no_digit (r : regex) (s : str) :
  needs_digit r -> digit_free s -> forall prev, search_from r prev s = None.
Proof.
  intros Hr. induction s as [|c s IH]; intros Hs prev; cbn [search_from];
    rewrite (Hr prev _ Hs); [reflexivity|].
  apply IH. by apply Forall_cons in Hs as [_ Hs].
Qed.

Lemma sub_repl_no_digit (r : regex) (repl : str) (s : str) :
  needs_digit r -> digit_free s -> forall prev, sub_repl r repl prev 0 s = s.
Proof.
  intros Hr. induction s as [|c s IH]; intros Hs prev; cbn [sub_repl];
    [reflexivity|].
  rewrite (Hr prev _ Hs). f_equal. apply IH.
  by apply Forall_cons in Hs as [_ Hs].
Qed.

Lemma extract_timestamp_no_digit (line : str) :
  digit_free line -> extract_timestamp line = None.
Proof.
  intros Hs. unfold extract_timestamp.
  pose proof timestamp_patterns_need_digit as Hp. revert Hp.
  generalize TIMESTAMP_PATTERNS. intros pats.
  induction 1 as [|q pats Hq _ IH]; [reflexivity|].
  cbn [extract_timestamp_from]. unfold re_search.
  by rewrite (search_from_no_digit q line Hq Hs).
Qed.

(** X16: a line without a digit has no timestamp, and nothing is cut out
    of it for one. *)
Theorem no_digit_no_timestamp (line : str) (n : nat) (e : Entry) :
  digit_free line -> parse_line line n = Some e -> timestamp e = None.
Proof.
  intros Hs. unfold parse_line.
  destruct (strip line) as [|c l] eqn:Hl; [discriminate|].
  intros [= <-]. lazy beta iota zeta delta [timestamp].
  apply extract_timestamp_no_digit. rewrite <- Hl.
  unfold digit_free. rewrite Forall_forall. intros x Hx.
  unfold digit_free in Hs. rewrite Forall_forall in Hs. apply Hs.
  eapply (sublist_subseteq _ _ (strip_by_sublist is_space line)). exact Hx.
Qed.

Lemma no_digit_no_timestamp_witness :
  digit_free boom_line /\ parse_line boom_line 1 = Some boom_entry
  /\ timestamp boom_entry = None.
Proof.
  assert (H1 : digit_free boom_line) by (repeat constructor).
  assert (H2 : parse_line boom_line 1 = Some boom_entry)
    by (vm_compute; reflexivity).
  split; [exact H1|]. split; [exact H2|].
  exact (no_digit_no_timestamp _ _ _ H1 H2).
Defined.

(** X17: [normalize_message] leaves a message without digits as it is. *)
Theorem normalize_message_no_digit (message : str) :
  digit_free message -> Normalize.normalize_message message = message.
Proof.
  intros Hs. unfold Normalize.normalize_message.
  destruct message as [|c m] eqn:Hm; [reflexivity|]. rewrite <- Hm in *.
  unfold re_sub.
  rewrite (sub_repl_no_digit _ _ _ ip_pattern_needs_digit Hs).
  rewrite (sub_repl_no_digit _ _ _ iso_date_pattern_needs_digit Hs).
  rewrite (sub_repl_no_digit _ _ _ slash_date_pattern_needs_digit Hs).
  by rewrite (sub_repl_no_digit _ _ _ number_pattern_needs_digit Hs).
Qed.

Lemma normalize_message_no_digit_witness :
  digit_free (txt "Database connection failed")
  /\ Normalize.normalize_message (txt "Database connection failed")
     = txt "Database connection failed".
Proof.
  assert (H : digit_free (txt "Database connection failed"))
    by (repeat constructor).
  split; [exact H | exact (normalize_message_no_digit _ H)].
Defined.

End DigitFacts.

(** ** Statistics: top messages and the hour histogram *)

Section MoreCounterFacts.
Context {K : Type} `{EqDecision K}.

Lemma counter_add_keys (k k' : K) (c : list (K * nat)) :
  k' ∈ (counter_add k c).*1 <-> k' = k \/ k' ∈ c.*1.
Proof.
  induction c as [|[k0 n] c IH]; cbn [counter_add].
  - cbn. rewrite list_elem_of_singleton, elem_of_nil. tauto.
  - destruct (decide (k0 = k)) as [->|Hne]; cbn [fmap list_fmap fst].
    + rewrite !elem_of_cons. tauto.
    + change (list_fmap _ _ fst (counter_add k c)) with (counter_add k c).*1.
      change (list_fmap _ _ fst c) with c.*1.
      rewrite !elem_of_cons, IH. tauto.
Qed.

Lemma counter_add_NoDup (k : K) (c : list (K * nat)) :
  NoDup c.*1 -> NoDup (counter_add k c).*1.
Proof.
  induction c as [|[k0 n] c IH]; cbn [counter_add]; intros Hnd.
  - repeat constructor. apply not_elem_of_nil.
  - destruct (decide (k0 = k)) as [->|Hne]; [exact Hnd|].
    cbn [fmap list_fmap fst] in *.
    change (list_fmap _ _ fst (counter_add k c)) with (counter_add k c).*1.
    change (list_fmap _ _ fst c) with c.*1 in Hnd.
    apply NoDup_cons in Hnd as [Hin Hnd]. constructor; [|by apply IH].
    rewrite counter_add_keys. intros [->|H]; [done | by apply Hin].
Qed.

Lemma Counter_keys (xs : list K) (k : K) : k ∈ (Counter xs).*1 <-> k ∈ xs.
Proof.
  unfold Counter.
  assert (H : forall c, k ∈ (fold_left (fun c k => counter_add k c) xs c).*1
                        <-> k ∈ xs \/ k ∈ c.*1).
  { induction xs as [|x xs IH]; intros c; cbn [fold_left].
    - rewrite elem_of_nil. tauto.
    - rewrite IH, counter_add_keys, elem_of_cons. tauto. }
  rewrite H. cbn. rewrite elem_of_nil. tauto.
Qed.

Lemma Counter_NoDup (xs : list K) : NoDup (Counter xs).*1.
Proof.
  unfold Counter.
  assert (H : forall c, NoDup c.*1 ->
                        NoDup (fold_left (fun c k => counter_add k c) xs c).*1).
  { induction xs as [|x xs IH]; intros c Hc; cbn [fold_left]; [exact Hc|].
    by apply IH, counter_add_NoDup. }
  apply H. constructor.
Qed.

Lemma counter_get_elem (k : K) (n : nat) (c : list (K * nat)) :
  NoDup c.*1 -> (k, n) ∈ c -> counter_get k c = n.
Proof.
  induction c as [|[k0 n0] c IH]; intros Hnd Hin.
  - by apply elem_of_nil in Hin.
  - cbn [counter_get]. cbn [fmap list_fmap fst] in Hnd.
    apply NoDup_cons in Hnd as [Hk0 Hnd].
    apply elem_of_cons in Hin as [[= -> ->]|Hin].
    + by rewrite decide_True.
    + rewrite decide_False; [by apply IH|].
      intros ->. apply Hk0. apply list_elem_of_fmap. by exists (k, n).
Qed.

(** An item of a counter holds the number of occurrences of its key. *)
Lemma Counter_elem (xs : list K) (k : K) (n : nat) :
  (k, n) ∈ Counter xs -> n = occurrences k xs /\ 1 <= n.
Proof.
  intros Hin.
  assert (Hk : k ∈ xs).
  { apply Counter_keys. apply list_elem_of_fmap. by exists (k, n). }
  assert (Hn : n = occurrences k xs).
  { rewrite <- counter_get_Counter. symmetry.
    apply counter_get_elem; [apply Counter_NoDup | exact Hin]. }
  split; [exact Hn|]. subst n.
  unfold occurrences.
  assert (Hf : k ∈ filter (fun x => x = k) xs)
    by (by apply list_elem_of_filter).
  destruct (filter (fun x => x = k) xs); [by apply elem_of_nil in Hf|].
  cbn. lia.
Qed.

Lemma insert_desc_Permutation (x : K * nat) (l : list (K * nat)) :
  insert_desc x l ≡ₚ x :: l.
Proof.
  induction l as [|y l IH]; cbn [insert_desc]; [reflexivity|].
  destruct (snd x <? snd y); [|reflexivity].
  rewrite IH. apply Permutation_swap.
Qed.

Lemma sort_desc_Permutation (l : list (K * nat)) : sort_desc l ≡ₚ l.
Proof.
  induction l as [|x l IH]; cbn; [reflexivity|].
  by rewrite insert_desc_Permutation, IH.
Qed.

Lemma insert_desc_sorted (x : K * nat) (l : list (K * nat)) :
  StronglySorted (fun a b => snd b <= snd a) l ->
  StronglySorted (fun a b => snd b <= snd a) (insert_desc x l).
Proof.
  induction 1 as [|y l Hs IH Hy]; cbn [insert_desc].
  - repeat constructor.
  - destruct (Nat.ltb_spec (snd x) (snd y)) as [Hlt|Hge].
    + constructor; [exact IH|].
      rewrite (insert_desc_Permutation x l). constructor; [lia | exact Hy].
    + constructor; [by constructor|]. constructor; [exact Hge|].
      eapply Forall_impl; [exact Hy|]. cbn. intros; lia.
Qed.

Lemma sort_desc_sorted (l : list (K * nat)) :
  StronglySorted (fun a b => snd b <= snd a) (sort_desc l).
Proof.
  induction l as [|x l IH]; cbn; [constructor | by apply insert_desc_sorted].
Qed.

(** [most_common n]: at most [n] items of the counter, with different keys,
    the larger counts first. *)
Lemma most_common_spec (n : nat) (c : list (K * nat)) :
  NoDup c.*1 ->
  length (most_common n c) <= n
  /\ most_common n c ⊆ c
  /\ NoDup (most_common n c).*1
  /\ StronglySorted (fun a b => snd b <= snd a) (most_common n c).
Proof.
  intros Hnd. unfold most_common. split; [rewrite length_take; lia|].
  split; [|split].
  - intros x Hx. apply subseteq_take in Hx.
    by rewrite sort_desc_Permutation in Hx.
  - assert (Hs : NoDup (sort_desc c).*1)
      by (by rewrite sort_desc_Permutation).
    rewrite <- (take_drop n (sort_desc c)), fmap_app in Hs.
    by apply NoDup_app in Hs as [Hs _].
  - pose proof (sort_desc_sorted c) as Hs.
    rewrite <- (take_drop n (sort_desc c)) in Hs.
    by apply StronglySorted_prefix in Hs.
Qed.

End MoreCounterFacts.

Section MoreStatistics.
Import LogAnalyzer.

(** X18: the top list of [_get_top_messages] holds at most [limit]
    messages, all different, the more frequent first; each comes with the
    number of times it occurs among the normalized (non-blank, lower-cased,
    stripped) messages, which is at least 1. *)
Theorem top_messages_spec (messages : list str) (limit : nat) :
  length (_get_top_messages messages limit) <= limit
  /\ NoDup (map top_message (_get_top_messages messages limit))
  /\ StronglySorted more_frequent (_get_top_messages messages limit)
  /\ Forall (fun t =>
       top_count t = occurrences (top_message t) (normalized_messages messages)
       /\ 1 <= top_count t) (_get_top_messages messages limit).
Proof.
  unfold _get_top_messages. destruct messages as [|m0 ms] eqn:Hm.
  { repeat split; [cbn; lia | constructor | constructor | constructor]. }
  rewrite <- Hm. clear Hm m0 ms.
  fold (normalized_messages messages).
  destruct (most_common_spec limit (Counter (normalized_messages messages))
              (Counter_NoDup _)) as (Hlen & Hsub & Hnd & Hsorted).
  set (tops := most_common limit (Counter (normalized_messages messages))) in *.
  set (mk := fun '(message, count) =>
               {| top_message := message; top_count := count;
                  top_percentage :=
                    round2 (Qnat count / Qnat (length messages) * 100) |}).
  assert (Hmsg : map top_message (map mk tops) = tops.*1).
  { clear. induction tops as [|[k n] tops IH]; [reflexivity|].
    cbn. f_equal. exact IH. }
  split; [by rewrite length_map|]. split; [by rewrite Hmsg|]. split.
  - clear -Hsorted. induction Hsorted as [|[k n] tops _ IH Hx]; cbn [map];
      constructor; [exact IH|].
    apply Forall_forall. intros t Ht.
    apply list_elem_of_fmap in Ht as ([k' n'] & -> & Hin).
    rewrite Forall_forall in Hx. apply (Hx _ Hin).
  - apply Forall_forall. intros t Ht.
    apply list_elem_of_fmap in Ht as ([k n] & -> & Hin). cbn.
    apply Counter_elem. by apply Hsub.
Qed.

Lemma time_distribution_fold (h : nat) (log_entries : list Entry) :
  forall m : gmap string nat,
  fold_left
    (fun hour_counts entry =>
       match timestamp entry with
       | Some ts =>
           <[pretty (dt_hour ts) :=
               default 0 (hour_counts !! pretty (dt_hour ts)) + 1]> hour_counts
       | None => hour_counts
       end) log_entries m !! pretty h
  = if hour_count h log_entries =? 0 then m !! pretty h
    else Some (default 0 (m !! pretty h) + hour_count h log_entries).
Proof.
  unfold hour_count.
  induction log_entries as [|e es IH]; intros m; [reflexivity|].
  cbn [fold_left]. rewrite IH, filter_cons.
  destruct (timestamp e) as [ts|]; cbn [fmap option_fmap option_map].
  - destruct (decide (Some (dt_hour ts) = Some h)) as [[= ->]|Hne].
    + rewrite lookup_insert_eq. cbn [length default].
      destruct (length _) as [|n]; cbn; f_equal; lia.
    + rewrite lookup_insert_ne; [reflexivity|].
      intros Heq. apply Hne. f_equal. by apply (inj pretty).
  - by rewrite decide_False.
Qed.

(** X19: the hour histogram holds, under the decimal text of an hour, the
    number of entries stamped with that hour, and no key at all for an hour
    nobody was stamped with; entries without a timestamp are not counted. *)
Theorem time_distribution_counts (log_entries : list Entry) (h : nat) :
  _get_time_distribution log_entries !! pretty h
  = if hour_count h log_entries =? 0 then None
    else Some (hour_count h log_entries).
Proof.
  unfold _get_time_distribution.
  rewrite (time_distribution_fold h log_entries ∅), lookup_empty.
  reflexivity.
Qed.

End MoreStatistics.

(** ** Anomalies *)

Section AnomalyFacts.
Import AnomalyDetector.

Lemma insert_anomaly_Permutation (x : Anomaly) (l : list Anomaly) :
  insert_anomaly x l ≡ₚ x :: l.
Proof.
  induction l as [|y l IH]; cbn [insert_anomaly]; [reflexivity|].
  destruct (_ && _); [|reflexivity].
  rewrite IH. apply Permutation_swap.
Qed.

Lemma sort_anomalies_Permutation (l : list Anomaly) :
  foldr insert_anomaly [] l ≡ₚ l.
Proof.
  induction l as [|x l IH]; cbn; [reflexivity|].
  by rewrite insert_anomaly_Permutation, IH.
Qed.

Lemma insert_anomaly_sorted (x : Anomaly) (l : list Anomaly) :
  StronglySorted lower_score_first l ->
  StronglySorted lower_score_first (insert_anomaly x l).
Proof.
  induction 1 as [|y l Hs IH Hy]; cbn [insert_anomaly].
  - repeat constructor.
  - destruct (Qle_bool (anomaly_score y) (anomaly_score x)) eqn:Hyx;
      cbn [andb negb];
      [destruct (Qle_bool (anomaly_score x) (anomaly_score y)) eqn:Hxy;
       cbn [negb]|].
    + apply Qle_bool_iff in Hxy.
      constructor; [by constructor|]. constructor; [exact Hxy|].
      eapply Forall_impl; [exact Hy|].
      unfold lower_score_first. cbn beta. intros z Hz.
      eapply Qle_trans; [exact Hxy | exact Hz].
    + apply Qle_bool_iff in Hyx.
      constructor; [exact IH|].
      rewrite (insert_anomaly_Permutation x l). by constructor.
    + assert (Hxy : (anomaly_score x <= anomaly_score y)%Q).
      { apply Qlt_le_weak, Qnot_le_lt. intros H.
        apply Qle_bool_iff in H. congruence. }
      constructor; [by constructor|]. constructor; [exact Hxy|].
      eapply Forall_impl; [exact Hy|].
      unfold lower_score_first. cbn beta. intros z Hz.
      eapply Qle_trans; [exact Hxy | exact Hz].
Qed.

Lemma sort_anomalies_sorted (l : list Anomaly) :
  StronglySorted lower_score_first (foldr insert_anomaly [] l).
Proof.
  induction l as [|x l IH]; cbn; [constructor | by apply insert_anomaly_sorted].
Qed.

(** What the loop over the predictions collects, from position [idx] on. *)
Lemma flagged_spec (rows : list (Entry * (Z * Q))) :
  forall idx,
  Forall (fun a => idx <= a_index a
                   /\ rows !! (a_index a - idx)
                      = Some (a_entry a, ((-1)%Z, anomaly_score a)))
         (flagged idx rows)
  /\ NoDup (map a_index (flagged idx rows))
  /\ length (flagged idx rows) <= length rows.
Proof.
  induction rows as [|[entry [prediction score]] rows IH]; intros idx.
  { cbn. repeat split; [constructor | constructor | lia]. }
  destruct (IH (S idx)) as (Hall & Hnd & Hlen).
  assert (Hall' : Forall (fun a => idx <= a_index a
      /\ ((entry, (prediction, score)) :: rows) !! (a_index a - idx)
         = Some (a_entry a, ((-1)%Z, anomaly_score a)))
    (flagged (S idx) rows)).
  { eapply Forall_impl; [exact Hall|]. cbn beta. intros a [Hle Hlk].
    split; [lia|].
    replace (a_index a - idx) with (S (a_index a - S idx)) by lia.
    exact Hlk. }
  cbn [flagged]. destruct (Z.eqb_spec prediction (-1)) as [->|Hne].
  - cbn [map length]. split; [|split].
    + constructor; [|exact Hall'].
      cbn [a_index a_entry anomaly_score]. rewrite Nat.sub_diag.
      split; [lia | reflexivity].
    + constructor; [|exact Hnd]. cbn [a_index].
      intros Hin. apply list_elem_of_fmap in Hin as (a & Heq & Ha).
      rewrite Forall_forall in Hall. apply Hall in Ha as [Hle _]. lia.
    + lia.
  - cbn [length]. split; [exact Hall'|]. split; [exact Hnd | lia].
Qed.

(** The list [detect_anomalies] builds from the predictions. *)
Lemma found_spec (log_entries : list Entry) (predictions : list (Z * Q)) :
  let found :=
    foldr insert_anomaly [] (flagged 0 (zip log_entries predictions)) in
  StronglySorted lower_score_first found
  /\ NoDup (map a_index found)
  /\ Forall (fun a =>
       log_entries !! a_index a = Some (a_entry a)
       /\ predictions !! a_index a = Some ((-1)%Z, anomaly_score a)) found
  /\ length found <= length log_entries.
Proof.
  intros found.
  destruct (flagged_spec (zip log_entries predictions) 0)
    as (Hall & Hnd & Hlen).
  pose proof (sort_anomalies_Permutation
                (flagged 0 (zip log_entries predictions))) as Hperm.
  fold found in Hperm.
  split; [apply sort_anomalies_sorted|]. split; [by rewrite Hperm|]. split.
  - rewrite Hperm. eapply Forall_impl; [exact Hall|]. cbn beta.
    intros a [_ Hlk]. rewrite Nat.sub_0_r in Hlk.
    unfold zip in Hlk. apply lookup_zip_with_Some in Hlk
      as (e & p & [= <- <-] & He & Hp). by split.
  - rewrite Hperm. etransitivity; [exact Hlen|].
    rewrite length_zip. lia.
Qed.

(** X20: what [detect_anomalies] returns is ordered by score, the lowest
    (most anomalous) first; every item is an entry of the batch, found at the
    item's index, that the model predicted [-1] with the item's score; no index
    comes twice, so there are at most as many items as entries. *)
Theorem detected_anomalies_spec
    (isolation_forest : Q -> list (list nat) -> option (list (Z * Q)))
    (contamination : Q) (log_entries : list Entry) (found : list Anomaly) :
  detect_anomalies isolation_forest contamination log_entries = Some found ->
  StronglySorted lower_score_first found
  /\ NoDup (map a_index found)
  /\ Forall (fun a =>
       log_entries !! a_index a = Some (a_entry a)
       /\ exists predictions,
            isolation_forest contamination (extract_features log_entries)
            = Some predictions
            /\ predictions !! a_index a = Some ((-1)%Z, anomaly_score a))
       found
  /\ length found <= length log_entries.
Proof.
  unfold detect_anomalies. destruct (length log_entries <? 10).
  { intros [= <-]. repeat split; [constructor | constructor | constructor
                                  | cbn; lia]. }
  destruct (isolation_forest contamination (extract_features log_entries))
    as [predictions|]; [|discriminate].
  intros [= <-].
  destruct (found_spec log_entries predictions) as (Hs & Hnd & Hall & Hlen).
  split; [exact Hs|]. split; [exact Hnd|]. split; [|exact Hlen].
  eapply Forall_impl; [exact Hall|]. cbn beta. intros a [He Hp].
  split; [exact He|]. by exists predictions.
Qed.

Lemma detected_anomalies_spec_witness :
  detect_anomalies flag_errors (1 # 10) mixed_batch = Some mixed_found
  /\ StronglySorted lower_score_first mixed_found
  /\ NoDup (map a_index mixed_found)
  /\ length mixed_found <= length mixed_batch.
Proof.
  assert (H : detect_anomalies flag_errors (1 # 10) mixed_batch
              = Some mixed_found) by (vm_compute; reflexivity).
  split; [exact H|].
  destruct (detected_anomalies_spec flag_errors (1 # 10) mixed_batch
              mixed_found H) as (Hs & Hnd & _ & Hlen).
  split; [exact Hs|]. split; [exact Hnd | exact Hlen].
Defined.



Lemma percentage_above (anomaly_count total_count : nat) (k : positive) :
  0 < total_count ->
  negb (Qle_bool (Qnat anomaly_count / Qnat total_count * 100) (Z.pos k # 1))
  = (Pos.to_nat k * total_count <? 100 * anomaly_count).
Proof.
  intros Hpos. destruct total_count as [|t]; [lia|].
  apply eq_true_iff_eq. rewrite negb_true_iff, Nat.ltb_lt.
  rewrite <- not_true_iff_false, Qle_bool_iff.
  unfold Qnat, Qle, Qdiv, Qmult, Qinv, inject_Z.
  change (Z.of_nat (S t)) with (Z.pos (Pos.of_succ_nat t)).
  cbn [Qnum Qden].
  rewrite !Pos.mul_1_l, !Pos.mul_1_r, Z.mul_1_r.
  rewrite Zpos_P_of_succ_nat. lia.
Qed.

(** X22: the recommendation depends on whether more than a fifth, a tenth
    or a twentieth of the entries were flagged. *)
Theorem recommendation_thresholds (anomaly_count total_count : nat) :
  0 < total_count ->
  _get_recommendation anomaly_count total_count
  = rate_class anomaly_count total_count.
Proof.
  intros Hpos. unfold _get_recommendation, rate_class.
  rewrite (percentage_above anomaly_count total_count 20 Hpos).
  rewrite (percentage_above anomaly_count total_count 10 Hpos).
  rewrite (percentage_above anomaly_count total_count 5 Hpos).
  change (Pos.to_nat 20) with 20. change (Pos.to_nat 10) with 10.
  change (Pos.to_nat 5) with 5.
  destruct (Nat.ltb_spec (20 * total_count) (100 * anomaly_count)),
           (Nat.ltb_spec total_count (5 * anomaly_count)); try lia;
    try reflexivity.
  destruct (Nat.ltb_spec (10 * total_count) (100 * anomaly_count)),
           (Nat.ltb_spec total_count (10 * anomaly_count)); try lia;
    try reflexivity.
  destruct (Nat.ltb_spec (5 * total_count) (100 * anomaly_count)),
           (Nat.ltb_spec total_count (20 * anomaly_count)); try lia;
    reflexivity.
Qed.

Lemma recommendation_thresholds_witness :
  _get_recommendation 3 12 = rate_class 3 12 /\ rate_class 3 12 = HighRate.
Proof.
  split; [apply (recommendation_thresholds 3 12); lia | reflexivity].
Defined.

End AnomalyFacts.

(** ** Pattern records and the detection result *)

Section MorePatternFacts.
Import PatternDetection.

Lemma if_any_type {A : Type} (xs : list A) (r : PatternRecord) :
  map p_type (if_any xs r) `sublist_of` [p_type r].
Proof. destruct xs; cbn; [apply sublist_nil_l | reflexivity]. Qed.

Lemma if_any_Forall {A : Type} (xs : list A) (r : PatternRecord)
    (P : PatternRecord -> Prop) :
  (xs <> [] -> P r) -> Forall P (if_any xs r).
Proof.
  destruct xs; cbn; intros H; [constructor|].
  constructor; [by apply H | constructor].
Qed.

Lemma nonempty_length {A : Type} (xs : list A) : xs <> [] -> 1 <= length xs.
Proof. destruct xs; [done | cbn; lia]. Qed.

(** X23: [extract_patterns] gives at most one record per pattern type, in
    the fixed order url, ip, http_status, sql, api_endpoint, exception; a
    record is only there when something was found, so its count is at least
    1, and it shows at most 5 examples.  This holds whatever order a set is
    listed in. *)
Theorem extract_patterns_shape (set_list : list str -> list str)
    (log_entries : list Entry) :
  map p_type (extract_patterns set_list log_entries) `sublist_of` pattern_order
  /\ Forall (fun p => 1 <= p_count p /\ examples_size (p_examples p) <= 5)
            (extract_patterns set_list log_entries).
Proof.
  unfold extract_patterns. split.
  - rewrite !map_app. unfold pattern_order.
    repeat first
      [ apply if_any_type
      | apply (sublist_app _ [_] _ (_ :: _)); [apply if_any_type|] ].
  - rewrite !Forall_app.
    repeat split; apply if_any_Forall; intros Hne;
      cbn [p_count p_examples examples_size];
      (split; [by apply nonempty_length|]);
      unfold most_common; rewrite length_take; lia.
Qed.

Lemma errors_and_warnings_filter (log_entries : list Entry) :
  filter (fun e => is_error_or_warning e = true) log_entries
  = errors_and_warnings log_entries.
Proof.
  apply list_filter_iff. intros e. unfold is_error_or_warning.
  by rewrite bool_decide_eq_true.
Qed.

Lemma group_similar_errors_length (batch : list Entry) (tau : Q) :
  length (group_similar_errors batch tau) <= 20.
Proof.
  unfold group_similar_errors. destruct batch as [|e batch]; [cbn; lia|].
  destruct (group_loop tau 0 (e :: batch) ([], ∅)) as [gs P].
  rewrite length_take. lia.
Qed.

(** X24: in the result of [detect_patterns] the two totals are the lengths
    of the two lists and there are at most 20 groups; [analyzed_logs] is the
    number of ERROR and WARNING entries, and is absent, with both lists
    empty, when there is none; and every member of a group is an ERROR or
    WARNING entry of the input, held with its position among those entries
    (not its position in the input). *)
Theorem detect_patterns_result (set_list : list str -> list str)
    (log_entries : list Entry) (min_similarity : Q) :
  let d := detect_patterns set_list log_entries min_similarity in
  total_patterns d = length (patterns d)
  /\ total_groups d = length (groups d)
  /\ total_groups d <= 20
  /\ analyzed_logs d
     = match errors_and_warnings log_entries with
       | [] => None
       | _ => Some (length (errors_and_warnings log_entries))
       end
  /\ (analyzed_logs d = None -> patterns d = [] /\ groups d = [])
  /\ (forall g k e, g ∈ groups d -> (k, e) ∈ entries g ->
        errors_and_warnings log_entries !! k = Some e
        /\ e ∈ log_entries
        /\ (log_level e = Some ERROR \/ log_level e = Some WARNING)).
Proof.
  intros d. subst d. unfold detect_patterns.
  destruct log_entries as [|e0 es].
  { cbn. repeat (split; [first [reflexivity | lia | done]|]).
    intros g k e H. by apply elem_of_nil in H. }
  rewrite errors_and_warnings_filter.
  set (l := e0 :: es). clearbody l. clear e0 es.
  destruct (errors_and_warnings l) as [|e1 ew] eqn:Hew.
  { cbn. repeat (split; [first [reflexivity | lia | done]|]).
    intros g k e H. by apply elem_of_nil in H. }
  cbn [total_patterns patterns total_groups groups analyzed_logs].
  split; [reflexivity|]. split; [reflexivity|].
  split; [apply group_similar_errors_length|].
  split; [reflexivity|]. split; [discriminate|].
  intros g k e Hg Hke.
  apply group_members_after_seed in Hg as (s & es & ms & Hent & Hs & Hms).
  assert (Hlk : (e1 :: ew) !! k = Some e).
  { rewrite Hent in Hke. apply elem_of_cons in Hke as [[= -> ->]|Hke];
      [exact Hs|].
    rewrite Forall_forall in Hms. apply (Hms _ Hke). }
  split; [exact Hlk|].
  apply list_elem_of_lookup_2 in Hlk. rewrite <- Hew in Hlk.
  unfold errors_and_warnings in Hlk.
  apply list_elem_of_filter in Hlk as [Hl Hin]. by split.
Qed.

End MorePatternFacts.

(** ** Feature rows of parsed files *)

Section FeatureFacts.
Import AnomalyDetector.

Lemma parse_lines_Forall (P : Entry -> Prop) (lines : list str) :
  (forall line n e, parse_line line n = Some e -> P e) ->
  forall idx, Forall P (parse_lines idx lines).
Proof.
  intros HP. induction lines as [|line lines IH]; intros idx;
    cbn [parse_lines]; [constructor|].
  destruct (parse_line line idx) eqn:Hp; [|apply IH].
  constructor; [by eapply HP | apply IH].
Qed.

Lemma weekday_bound (t : datetime) : weekday t <= 6.
Proof.
  unfold weekday.
  pose proof (Nat.mod_upper_bound (toordinal t + 6) 7). lia.
Qed.

(** X25: the feature rows of a parsed file have five columns within
    their documented ranges: hour 0 to 23, day of week 0 to 6, level code 0
    to 3, a message length of at least 1, and a keyword flag of 0 or 1; there
    is one row per entry. *)
Theorem features_of_parsed_file (content : str) :
  length (extract_features (parse_file content)) = length (parse_file content)
  /\ Forall (fun row => exists hour day level len flag,
               row = [hour; day; level; len; flag]
               /\ hour <= 23 /\ day <= 6 /\ level <= 3 /\ 1 <= len
               /\ flag <= 1)
            (extract_features (parse_file content)).
Proof.
  unfold extract_features. split; [apply length_map|].
  apply Forall_fmap. unfold parse_file.
  apply parse_lines_Forall. intros line n e Hp. cbn beta.
  assert (Hts : forall t, timestamp e = Some t -> valid_datetime t).
  { revert Hp. unfold parse_line. destruct (strip line); [discriminate|].
    intros [= <-]. cbn [timestamp]. apply extract_timestamp_valid. }
  assert (Hmsg : message e <> []).
  { revert Hp. unfold parse_line. destruct (strip line) as [|c l];
      [discriminate|]. intros [= <-]. cbn [message].
    destruct (join _ _); discriminate. }
  unfold compose, features_of.
  destruct (timestamp e) as [t|] eqn:Ht; cbn beta iota zeta.
  - do 5 eexists. split; [reflexivity|].
    destruct (Hts t eq_refl) as (_ & _ & _ & Hh & _).
    split; [exact Hh|]. split; [apply weekday_bound|].
    split; [destruct (log_level e) as [[]|]; cbn; lia|].
    split; [by apply nonempty_length|].
    destruct (existsb _ _); lia.
  - do 5 eexists. split; [reflexivity|].
    split; [lia|]. split; [lia|].
    split; [destruct (log_level e) as [[]|]; cbn; lia|].
    split; [by apply nonempty_length|].
    destruct (existsb _ _); lia.
Qed.

End FeatureFacts.

(** ** Percentages *)

Section PercentageFacts.

Lemma round_half_even_bounds (x : Q) (n : Z) :
  (0 <= x)%Q -> (x <= inject_Z n)%Q ->
  (0 <= round_half_even x <= n)%Z.
Proof.
  intros H0 Hn. unfold round_half_even.
  assert (Hf0 : (0 <= Qfloor x)%Z).
  { change 0%Z with (Qfloor 0). by apply Qfloor_resp_le. }
  assert (Hfn : (Qfloor x <= n)%Z).
  { rewrite <- (Qfloor_Z n). by apply Qfloor_resp_le. }
  destruct (Z.eq_dec (Qfloor x) n) as [Heq|Hne].
  - assert (Hlt : (x - inject_Z (Qfloor x) < 1 # 2)%Q).
    { rewrite Heq. apply Qle_lt_trans with (y := 0%Q); [|reflexivity].
      apply (Qplus_le_l _ _ (inject_Z n)). ring_simplify. exact Hn. }
    assert (Hc : (x - inject_Z (Qfloor x) ?= 1 # 2)%Q = Lt)
      by (by apply Qlt_alt).
    rewrite Hc. lia.
  - destruct (_ ?= _)%Q; [destruct (Z.even _)| |]; lia.
Qed.

Lemma round2_bounds (q : Q) :
  (0 <= q)%Q -> (q <= 100)%Q -> (0 <= round2 q)%Q /\ (round2 q <= 100)%Q.
Proof.
  intros H0 H100. unfold round2. rewrite Qred_correct.
  destruct (round_half_even_bounds (q * 100) 10000) as [Hlo Hhi].
  - apply Qmult_le_0_compat; [exact H0 | discriminate].
  - change (inject_Z 10000) with (100 * 100)%Q.
    apply Qmult_le_compat_r; [exact H100 | discriminate].
  - set (z := round_half_even (q * 100)) in *. clearbody z.
    unfold Qle, Qdiv, Qmult, Qinv, inject_Z. cbn. lia.
Qed.

Lemma percentage_bounds (part whole : nat) :
  part <= whole ->
  (0 <= Qnat part / Qnat whole * 100)%Q
  /\ (Qnat part / Qnat whole * 100 <= 100)%Q.
Proof.
  intros Hle. destruct whole as [|w].
  { assert (part = 0) as -> by lia. split; discriminate. }
  unfold Qnat, Qle, Qdiv, Qmult, Qinv, inject_Z.
  change (Z.of_nat (S w)) with (Z.pos (Pos.of_succ_nat w)).
  cbn [Qnum Qden]. rewrite !Pos.mul_1_l, !Pos.mul_1_r, !Z.mul_1_r.
  rewrite Zpos_P_of_succ_nat. split; nia.
Qed.

Lemma occurrences_le {K : Type} `{EqDecision K} (k : K) (xs : list K) :
  occurrences k xs <= length xs.
Proof. unfold occurrences. apply length_filter. Qed.

(** X26: the percentage of a top message lies between 0 and 100. *)
Theorem top_percentage_in_range (messages : list str) (limit : nat) :
  Forall (fun t => (0 <= LogAnalyzer.top_percentage t)%Q
                   /\ (LogAnalyzer.top_percentage t <= 100)%Q)
         (LogAnalyzer._get_top_messages messages limit).
Proof.
  unfold LogAnalyzer._get_top_messages.
  destruct messages as [|m0 ms] eqn:Hm; [constructor|].
  rewrite <- Hm. clear Hm m0 ms. fold (normalized_messages messages).
  apply Forall_forall. intros t Ht.
  apply list_elem_of_fmap in Ht as ([k n] & -> & Hin).
  cbn [LogAnalyzer.top_percentage].
  unfold most_common in Hin. apply subseteq_take in Hin.
  rewrite sort_desc_Permutation in Hin.
  apply Counter_elem in Hin as [-> _].
  assert (Hle : occurrences k (normalized_messages messages)
                <= length messages).
  { etransitivity; [apply occurrences_le|].
    unfold normalized_messages. rewrite length_map. apply length_filter. }
  destruct (percentage_bounds _ _ Hle) as [H0 H100].
  by apply round2_bounds.
Qed.

(** X27: the anomaly percentage of a summary lies between 0 and 100. *)
Theorem anomaly_percentage_in_range
    (isolation_forest : Q -> list (list nat) -> option (list (Z * Q)))
    (contamination : Q) (log_entries : list Entry)
    (s : AnomalyDetector.Summary) :
  AnomalyDetector.get_anomaly_summary isolation_forest contamination
    log_entries = Some s ->
  (0 <= AnomalyDetector.anomaly_percentage s)%Q
  /\ (AnomalyDetector.anomaly_percentage s <= 100)%Q.
Proof.
  unfold AnomalyDetector.get_anomaly_summary, AnomalyDetector.detect_anomalies.
  destruct (length log_entries <? 10).
  { intros [= <-]. split; discriminate. }
  destruct (isolation_forest contamination _) as [predictions|];
    [|discriminate].
  destruct (found_spec log_entries predictions) as (_ & _ & _ & Hlen).
  destruct (foldr AnomalyDetector.insert_anomaly [] _) as [|a found].
  { intros [= <-]. split; discriminate. }
  intros [= <-]. cbn [AnomalyDetector.anomaly_percentage].
  destruct (percentage_bounds _ _ Hlen) as [H0 H100].
  by apply round2_bounds.
Qed.

Lemma anomaly_percentage_in_range_witness :
  AnomalyDetector.get_anomaly_summary flag_errors (1 # 10) mixed_batch
  = Some mixed_summary
  /\ (0 <= AnomalyDetector.anomaly_percentage mixed_summary)%Q
  /\ (AnomalyDetector.anomaly_percentage mixed_summary <= 100)%Q.
Proof.
  assert (H : AnomalyDetector.get_anomaly_summary flag_errors (1 # 10)
                mixed_batch = Some mixed_summary) by (vm_compute; reflexivity).
  split; [exact H|].
  exact (anomaly_percentage_in_range flag_errors (1 # 10) mixed_batch _ H).
Defined.

End PercentageFacts.
